(** * Lighting black holes: the geodesic solver and the scene engine

    A shallow embedding of [src/components/BlackHole.tsx] (the component
    that carries the gravitation toggle, the pan offset and the coordinate
    edit dialog) and the proofs of its specified properties.

    Numbers.  A TypeScript [number] is read as a real number: the
    arithmetic of the source is the arithmetic of [R], comparisons are the
    order of [R], and [Math.cos], [Math.sin], [Math.atan2], [Math.hypot]
    are the real functions they approximate.  Rounding, NaN and the
    infinities of IEEE-754 are outside this model.  Division is the total
    division of [R]; a quotient stands for the one of the source where
    the divisor is not 0, and the runs of the solver in which no divisor
    is 0 are singled out by [finiteRun].  Ray identifiers and the id counter hold integers
    only (0, 1, 2, ...) and are read in [Z]. *)

From Stdlib Require Import Reals Lra Lia ZArith String Bool List.
Import ListNotations.

Open Scope R_scope.

(** ** JavaScript numeric primitives *)

Definition Rleb (a b : R) : bool := if Rle_dec a b then true else false.
Definition Rltb (a b : R) : bool := if Rlt_dec a b then true else false.
Definition Rgtb (a b : R) : bool := Rltb b a.

Module Math.

Definition PI : R := Rtrigo1.PI.
Definition cos : R -> R := Rtrigo_def.cos.
Definition sin : R -> R := Rtrigo_def.sin.
Definition max : R -> R -> R := Rmax.
Definition min : R -> R -> R := Rmin.

(** [Math.hypot(a, b)]: the square root of the sum of the squares. *)
Definition hypot (a b : R) : R := sqrt (a * a + b * b).

(** [Math.atan2(y, x)]: the polar angle of the point [(x, y)], in
    (-PI, PI]; 0 at the origin. *)
Definition atan2 (y x : R) : R :=
  if Rltb 0 x then atan (y / x)
  else if Rltb x 0 then
    (if Rleb 0 y then atan (y / x) + PI else atan (y / x) - PI)
  else if Rltb 0 y then PI / 2
  else if Rltb y 0 then - (PI / 2)
  else 0.

End Math.

(** The [%] operator: the remainder has the sign of the dividend, the
    quotient is truncated towards zero. *)
Definition trunc (q : R) : Z := if Rleb 0 q then Zfloor q else Zceil q.
Definition js_rem (a b : R) : R := a - b * IZR (trunc (a / b)).

(** ** The geodesic solver *)

Module Point.
Record t : Type := mk { x : R; y : R; distToCenter : R }.
End Point.

Definition vec3 : Type := (R * R * R)%type.

(** One classical Runge-Kutta step of size [h] on the state [r, phi, p_r]. *)
Definition rk4 (y : vec3) (h : R) (derivs : vec3 -> vec3) : vec3 :=
  let '(y0, y1, y2) := y in
  let '(k1_0, k1_1, k1_2) := derivs y in
  let '(k2_0, k2_1, k2_2) :=
    derivs (y0 + 0.5 * h * k1_0, y1 + 0.5 * h * k1_1, y2 + 0.5 * h * k1_2) in
  let '(k3_0, k3_1, k3_2) :=
    derivs (y0 + 0.5 * h * k2_0, y1 + 0.5 * h * k2_1, y2 + 0.5 * h * k2_2) in
  let '(k4_0, k4_1, k4_2) :=
    derivs (y0 + h * k3_0, y1 + h * k3_1, y2 + h * k3_2) in
  (y0 + (h / 6) * (k1_0 + 2 * k2_0 + 2 * k3_0 + k4_0),
   y1 + (h / 6) * (k1_1 + 2 * k2_1 + 2 * k3_1 + k4_1),
   y2 + (h / 6) * (k1_2 + 2 * k2_2 + 2 * k3_2 + k4_2)).

Definition maxSteps : nat := 4000.

Module Solver.
Section LightPath.

Variables (startX startY angleDeg width height bhSize zoom : R).
Variable gravityEnabled : bool.

(* screen -> BH-centric coordinates *)
Definition centerX : R := width / 2.
Definition centerY : R := height / 2.
Definition rs : R := bhSize * 0.25.
Definition massFactor : R := if gravityEnabled then 1 else 0.
Definition effectiveRs : R := rs * massFactor.
Definition relX0 : R := startX - centerX.
Definition relY0 : R := startY - centerY.

(* polar coordinates of the starting point *)
Definition r0 : R := Math.hypot relX0 relY0.
Definition phi0 : R := Math.atan2 relY0 relX0.

(* initial Euclidean direction *)
Definition angle : R := (angleDeg * Math.PI) / 180.
Definition vx : R := Math.cos angle.
Definition vy : R := Math.sin angle.

(* components along e_r, e_phi *)
Definition n_r : R := vx * Math.cos phi0 + vy * Math.sin phi0.
Definition n_phi : R := (- vx) * Math.sin phi0 + vy * Math.cos phi0.

Definition p_r0 : R := n_r.
Definition L : R := n_phi * r0.

(* the quotients are the source's for r <> 0; at r = 0 the source has
   Infinity or NaN, see [finiteRun] *)
Definition derivs (y : vec3) : vec3 :=
  let '(r, _phi, p_r) := y in
  let _f := 1 - effectiveRs / r in
  let dVdr := L * L * ((-2) / (r ^ 3) + (3 * effectiveRs) / (r ^ 4)) in
  (p_r, L / (r * r), (-0.5) * dVdr).

Definition h : R := rs * 0.01.
Definition maxDistance : R := Math.max width height * (1.5 / zoom).

(** The two [break] tests of the loop body. *)
Definition captured (yState : vec3) : bool :=
  let '(r, _, _) := yState in Rleb r (effectiveRs * 1.001).

Definition xPix (yState : vec3) : R :=
  let '(r, phi, _) := yState in r * Math.cos phi + centerX.
Definition yPix (yState : vec3) : R :=
  let '(r, phi, _) := yState in r * Math.sin phi + centerY.

Definition escaped (yState : vec3) : bool :=
  let distFromCenter :=
    Math.hypot (xPix yState - centerX) (yPix yState - centerY) in
  let factor := 1 / zoom in
  Rgtb distFromCenter maxDistance
  || Rltb (xPix yState) ((- factor) * width)
  || Rgtb (xPix yState) (width * factor)
  || Rltb (yPix yState) ((- factor) * height)
  || Rgtb (yPix yState) (height * factor).

Definition pushed (yState : vec3) : Point.t :=
  {| Point.x := xPix yState;
     Point.y := yPix yState;
     Point.distToCenter := zoom |}.

(** The [for] loop: [steps] iterations remain, [points] is the array
    built so far. *)
Fixpoint integrate (steps : nat) (yState : vec3) (points : list Point.t)
  : list Point.t :=
  match steps with
  | O => points
  | S steps' =>
      if captured yState then points
      else if escaped yState then points
      else integrate steps' (rk4 yState h derivs) (points ++ [pushed yState])
  end.

Definition calculateLightPath : list Point.t :=
  integrate maxSteps (r0, phi0, p_r0) [].

(** The state the loop holds at the start of iteration [k]. *)
Fixpoint stateAt (k : nat) : vec3 :=
  match k with
  | O => (r0, phi0, p_r0)
  | S k' => rk4 (stateAt k') h derivs
  end.

(** The points of the first [k] iterations, in integration order. *)
Definition pointsOf (k : nat) : list Point.t :=
  map (fun j => pushed (stateAt j)) (seq 0 k).

End LightPath.
End Solver.

(** ** Straight rays

    [closeTo tol a b]: the numbers agree within the relative tolerance
    [tol], the gap being measured against the larger magnitude. *)
Definition closeTo (tol a b : R) : Prop :=
  Rabs (a - b) <= tol * Rmax (Rabs a) (Rabs b).

(** The point lies, within [tol], on the Euclidean ray that leaves
    [(originX, originY)] in the screen direction [angleDeg]. *)
Definition onRayWithin (tol originX originY angleDeg : R) (p : Point.t)
  : Prop :=
  exists t : R,
    0 <= t /\
    closeTo tol (Point.x p) (originX + t * Solver.vx angleDeg) /\
    closeTo tol (Point.y p) (originY + t * Solver.vy angleDeg).

(** ** Runs that stay within the real numbers

    [derivs] divides by [r * r], [r ^ 3] and [r ^ 4].  For r <> 0 the
    quotients are the real numbers that [Solver.derivs] computes.  At
    r = 0 the source obtains Infinity or NaN, which the state then
    carries on; the value of [Solver.derivs] there stands for nothing in
    the source.  A step is finite when none of the four states at which
    [rk4] calls [derivs] has r = 0, and a run is finite up to iteration
    [k] when its first [k] steps are: the state of iteration [k] is then
    the one the source holds. *)

Definition Reqb (a b : R) : bool := if Req_dec_T a b then true else false.

(** The states at which one [rk4] step calls [derivs], in call order. *)
Definition rk4_stages (y : vec3) (h : R) (derivs : vec3 -> vec3)
  : list vec3 :=
  let '(y0, y1, y2) := y in
  let '(k1_0, k1_1, k1_2) := derivs y in
  let second :=
    (y0 + 0.5 * h * k1_0, y1 + 0.5 * h * k1_1, y2 + 0.5 * h * k1_2) in
  let '(k2_0, k2_1, k2_2) := derivs second in
  let third :=
    (y0 + 0.5 * h * k2_0, y1 + 0.5 * h * k2_1, y2 + 0.5 * h * k2_2) in
  let '(k3_0, k3_1, k3_2) := derivs third in
  let fourth := (y0 + h * k3_0, y1 + h * k3_1, y2 + h * k3_2) in
  [y; second; third; fourth].

(** [derivs] called on this state divides by zero. *)
Definition dividesByZero (y : vec3) : bool :=
  let '(r, _, _) := y in Reqb r 0.

Section FiniteRuns.

Variables (startX startY angleDeg width height bhSize : R).
Variable gravityEnabled : bool.

Definition finiteStep (yState : vec3) : bool :=
  forallb (fun y => negb (dividesByZero y))
    (rk4_stages yState (Solver.h bhSize)
       (Solver.derivs startX startY angleDeg width height bhSize
          gravityEnabled)).

Definition finiteRun (k : nat) : bool :=
  forallb
    (fun j =>
       finiteStep
         (Solver.stateAt startX startY angleDeg width height bhSize
            gravityEnabled j))
    (seq 0 k).

(** The states of the loop when [derivs] is replaced by [d]. *)
Fixpoint stateWith (d : vec3 -> vec3) (k : nat) : vec3 :=
  match k with
  | O => (Solver.r0 startX startY width height,
          Solver.phi0 startX startY width height,
          Solver.p_r0 startX startY angleDeg width height)
  | S k' => rk4 (stateWith d k') (Solver.h bhSize) d
  end.

End FiniteRuns.

(** ** The Euclidean ray in polar form

    The ray that leaves the start point in the direction of emission, in
    the quantities of the solver's state: at parameter [t] the offset of
    its point from the body center, the length [r] of that offset, the
    rate [p_r] at which [r] grows, and the cosine and sine of the polar
    angle. *)

Module Ray.
Section Polar.

Variables (startX startY angleDeg width height : R).

Definition relX (t : R) : R :=
  Solver.relX0 startX width + t * Solver.vx angleDeg.
Definition relY (t : R) : R :=
  Solver.relY0 startY height + t * Solver.vy angleDeg.
Definition r (t : R) : R := Math.hypot (relX t) (relY t).
Definition p_r (t : R) : R :=
  (relX t * Solver.vx angleDeg + relY t * Solver.vy angleDeg) / r t.

End Polar.
End Ray.

(** ** The scene: rays ("lasers") and the component state *)

Inductive Direction : Type := dir_left | dir_right.

Module Laser.
Record t : Type := mk {
  id : Z;
  x : R;
  y : R;
  fired : bool;
  angle : R;
  direction : Direction
}.

(* the object spreads [{ ...laser, field: v }] *)
Definition with_x (l : t) (v : R) : t :=
  mk (id l) v (y l) (fired l) (angle l) (direction l).
Definition with_y (l : t) (v : R) : t :=
  mk (id l) (x l) v (fired l) (angle l) (direction l).
Definition with_angle (l : t) (v : R) : t :=
  mk (id l) (x l) (y l) (fired l) v (direction l).
End Laser.

(** Function to normalize angle to 0-360 range. *)
Definition normalizeAngle (angle : R) : R :=
  js_rem (js_rem angle 360 + 360) 360.

Inductive Field : Type := field_x | field_y | field_angle.

Module TempInput.
Record t : Type := mk { x : string; y : string; angle : string }.

(* [{ ...prev, [field]: value }] *)
Definition set (prev : t) (field : Field) (value : string) : t :=
  match field with
  | field_x => mk value (y prev) (angle prev)
  | field_y => mk (x prev) value (angle prev)
  | field_angle => mk (x prev) (y prev) value
  end.
End TempInput.

Record XY : Type := mkXY { xy_x : R; xy_y : R }.
Record Size : Type := mkSize { sz_width : R; sz_height : R }.

(** What a handler reads from a React mouse event: the pointer, the
    button (0 primary, 1 middle, 2 secondary), the modifier keys and the
    bounding rectangle of [e.currentTarget]. *)
Record MouseEvent : Type := mkMouseEvent {
  clientX : R;
  clientY : R;
  button : Z;
  shiftKey : bool;
  altKey : bool;
  rect_left : R;
  rect_top : R
}.

(** The [useState] cells of [BlackHoleComponent] that the engine reads or
    writes (stars, language and the client flag are presentation only). *)
Record State : Type := mkState {
  zoom : R;
  gravityEnabled : bool;
  showGrid : bool;
  editingLaserId : option Z;
  tempInputValues : TempInput.t;
  size : Size;
  lasers : list Laser.t;
  nextId : Z;
  isDragging : bool;
  dragOffset : XY;
  draggedLaserId : option Z;
  rotatingLaserId : option Z;
  lastMouseX : option R;
  panOffset : XY;
  isPanning : bool;
  panStart : XY;
  wasPanning : bool
}.

Definition setZoom (s : State) (v : R) : State :=
  mkState v (gravityEnabled s) (showGrid s) (editingLaserId s)
    (tempInputValues s) (size s) (lasers s) (nextId s) (isDragging s)
    (dragOffset s) (draggedLaserId s) (rotatingLaserId s) (lastMouseX s)
    (panOffset s) (isPanning s) (panStart s) (wasPanning s).
Definition setGravityEnabled (s : State) (v : bool) : State :=
  mkState (zoom s) v (showGrid s) (editingLaserId s)
    (tempInputValues s) (size s) (lasers s) (nextId s) (isDragging s)
    (dragOffset s) (draggedLaserId s) (rotatingLaserId s) (lastMouseX s)
    (panOffset s) (isPanning s) (panStart s) (wasPanning s).
Definition setShowGrid (s : State) (v : bool) : State :=
  mkState (zoom s) (gravityEnabled s) v (editingLaserId s)
    (tempInputValues s) (size s) (lasers s) (nextId s) (isDragging s)
    (dragOffset s) (draggedLaserId s) (rotatingLaserId s) (lastMouseX s)
    (panOffset s) (isPanning s) (panStart s) (wasPanning s).
Definition setEditingLaserId (s : State) (v : option Z) : State :=
  mkState (zoom s) (gravityEnabled s) (showGrid s) v
    (tempInputValues s) (size s) (lasers s) (nextId s) (isDragging s)
    (dragOffset s) (draggedLaserId s) (rotatingLaserId s) (lastMouseX s)
    (panOffset s) (isPanning s) (panStart s) (wasPanning s).
Definition setTempInputValues (s : State) (v : TempInput.t) : State :=
  mkState (zoom s) (gravityEnabled s) (showGrid s) (editingLaserId s)
    v (size s) (lasers s) (nextId s) (isDragging s)
    (dragOffset s) (draggedLaserId s) (rotatingLaserId s) (lastMouseX s)
    (panOffset s) (isPanning s) (panStart s) (wasPanning s).
Definition setSize (s : State) (v : Size) : State :=
  mkState (zoom s) (gravityEnabled s) (showGrid s) (editingLaserId s)
    (tempInputValues s) v (lasers s) (nextId s) (isDragging s)
    (dragOffset s) (draggedLaserId s) (rotatingLaserId s) (lastMouseX s)
    (panOffset s) (isPanning s) (panStart s) (wasPanning s).
Definition setLasers (s : State) (v : list Laser.t) : State :=
  mkState (zoom s) (gravityEnabled s) (showGrid s) (editingLaserId s)
    (tempInputValues s) (size s) v (nextId s) (isDragging s)
    (dragOffset s) (draggedLaserId s) (rotatingLaserId s) (lastMouseX s)
    (panOffset s) (isPanning s) (panStart s) (wasPanning s).
Definition setNextId (s : State) (v : Z) : State :=
  mkState (zoom s) (gravityEnabled s) (showGrid s) (editingLaserId s)
    (tempInputValues s) (size s) (lasers s) v (isDragging s)
    (dragOffset s) (draggedLaserId s) (rotatingLaserId s) (lastMouseX s)
    (panOffset s) (isPanning s) (panStart s) (wasPanning s).
Definition setIsDragging (s : State) (v : bool) : State :=
  mkState (zoom s) (gravityEnabled s) (showGrid s) (editingLaserId s)
    (tempInputValues s) (size s) (lasers s) (nextId s) v
    (dragOffset s) (draggedLaserId s) (rotatingLaserId s) (lastMouseX s)
    (panOffset s) (isPanning s) (panStart s) (wasPanning s).
Definition setDragOffset (s : State) (v : XY) : State :=
  mkState (zoom s) (gravityEnabled s) (showGrid s) (editingLaserId s)
    (tempInputValues s) (size s) (lasers s) (nextId s) (isDragging s)
    v (draggedLaserId s) (rotatingLaserId s) (lastMouseX s)
    (panOffset s) (isPanning s) (panStart s) (wasPanning s).
Definition setDraggedLaserId (s : State) (v : option Z) : State :=
  mkState (zoom s) (gravityEnabled s) (showGrid s) (editingLaserId s)
    (tempInputValues s) (size s) (lasers s) (nextId s) (isDragging s)
    (dragOffset s) v (rotatingLaserId s) (lastMouseX s)
    (panOffset s) (isPanning s) (panStart s) (wasPanning s).
Definition setRotatingLaserId (s : State) (v : option Z) : State :=
  mkState (zoom s) (gravityEnabled s) (showGrid s) (editingLaserId s)
    (tempInputValues s) (size s) (lasers s) (nextId s) (isDragging s)
    (dragOffset s) (draggedLaserId s) v (lastMouseX s)
    (panOffset s) (isPanning s) (panStart s) (wasPanning s).
Definition setLastMouseX (s : State) (v : option R) : State :=
  mkState (zoom s) (gravityEnabled s) (showGrid s) (editingLaserId s)
    (tempInputValues s) (size s) (lasers s) (nextId s) (isDragging s)
    (dragOffset s) (draggedLaserId s) (rotatingLaserId s) v
    (panOffset s) (isPanning s) (panStart s) (wasPanning s).
Definition setPanOffset (s : State) (v : XY) : State :=
  mkState (zoom s) (gravityEnabled s) (showGrid s) (editingLaserId s)
    (tempInputValues s) (size s) (lasers s) (nextId s) (isDragging s)
    (dragOffset s) (draggedLaserId s) (rotatingLaserId s) (lastMouseX s)
    v (isPanning s) (panStart s) (wasPanning s).
Definition setIsPanning (s : State) (v : bool) : State :=
  mkState (zoom s) (gravityEnabled s) (showGrid s) (editingLaserId s)
    (tempInputValues s) (size s) (lasers s) (nextId s) (isDragging s)
    (dragOffset s) (draggedLaserId s) (rotatingLaserId s) (lastMouseX s)
    (panOffset s) v (panStart s) (wasPanning s).
Definition setPanStart (s : State) (v : XY) : State :=
  mkState (zoom s) (gravityEnabled s) (showGrid s) (editingLaserId s)
    (tempInputValues s) (size s) (lasers s) (nextId s) (isDragging s)
    (dragOffset s) (draggedLaserId s) (rotatingLaserId s) (lastMouseX s)
    (panOffset s) (isPanning s) v (wasPanning s).
Definition setWasPanning (s : State) (v : bool) : State :=
  mkState (zoom s) (gravityEnabled s) (showGrid s) (editingLaserId s)
    (tempInputValues s) (size s) (lasers s) (nextId s) (isDragging s)
    (dragOffset s) (draggedLaserId s) (rotatingLaserId s) (lastMouseX s)
    (panOffset s) (isPanning s) (panStart s) v.

Definition initialState : State :=
  {| zoom := 1;
     gravityEnabled := false;
     showGrid := false;
     editingLaserId := None;
     tempInputValues := TempInput.mk "" "" "";
     size := mkSize 800 800;
     lasers := [];
     nextId := 0%Z;
     isDragging := false;
     dragOffset := mkXY 0 0;
     draggedLaserId := None;
     rotatingLaserId := None;
     lastMouseX := None;
     panOffset := mkXY 0 0;
     isPanning := false;
     panStart := mkXY 0 0;
     wasPanning := false |}.

(** ** The interaction handlers of [BlackHoleComponent]

    Each handler is a function from the state of the render it closes
    over to the state after its [set...] calls; React runs one handler
    per discrete event and re-renders before the next one. *)

Definition minZoom : R := 0.2.
Definition maxZoom : R := 2.5.

Definition Z_option_eqb (a : Z) (b : option Z) : bool :=
  match b with
  | Some b' => Z.eqb a b'
  | None => false
  end.

(** The two [while] loops that bring the displayed angle into
    (-180, 180]; the iteration counts are bounded by the size of the
    argument. *)
Fixpoint while_gt_180 (fuel : nat) (displayAngle : R) : R :=
  match fuel with
  | O => displayAngle
  | S fuel' =>
      if Rgtb displayAngle 180 then while_gt_180 fuel' (displayAngle - 360)
      else displayAngle
  end.

Fixpoint while_le_m180 (fuel : nat) (displayAngle : R) : R :=
  match fuel with
  | O => displayAngle
  | S fuel' =>
      if Rleb displayAngle (-180) then while_le_m180 fuel' (displayAngle + 360)
      else displayAngle
  end.

Definition loopBound (a : R) : nat := Z.to_nat (up (Rabs a / 360)).

Definition displayAngleOf (laserAngle : R) : R :=
  let displayAngle := - laserAngle in
  let displayAngle := while_gt_180 (loopBound displayAngle) displayAngle in
  while_le_m180 (loopBound displayAngle) displayAngle.

Section BlackHoleComponent.

(** [parseFloat]: [None] stands for NaN. *)
Variable parseFloat : string -> option R.
(** [n.toFixed(digits)]. *)
Variable toFixed : R -> nat -> string.

Definition BH_SIZE (s : State) : R :=
  Math.min (Math.min (sz_width (size s)) (sz_height (size s))) 600.
Definition rs (s : State) : R := BH_SIZE s * 0.25.
Definition playgroundWidth (s : State) : R := sz_width (size s) * 0.8.
Definition playgroundHeight (s : State) : R := sz_height (size s).
Definition BH_CENTER (s : State) : XY :=
  mkXY (playgroundWidth s / 2) (playgroundHeight s / 2).

Definition handleWheel (s : State) (deltaY : R) : State :=
  let next := zoom s - deltaY * 0.001 in
  let next := if Rltb next minZoom then minZoom else next in
  let next := if Rgtb next maxZoom then maxZoom else next in
  setZoom s next.

Definition handleCanvasClick (s : State) (e : MouseEvent) : State :=
  if wasPanning s then setWasPanning s false
  else if isDragging s || isPanning s then s
  else
    let x := clientX e - rect_left e in
    let y := clientY e - rect_top e in
    let relativeX := (x - xy_x (BH_CENTER s) - xy_x (panOffset s)) / zoom s in
    let relativeY := (y - xy_y (BH_CENTER s) - xy_y (panOffset s)) / zoom s in
    let distanceFromCenter := Math.hypot relativeX relativeY in
    let blackHoleRadius := rs s / zoom s in
    if Rgtb distanceFromCenter blackHoleRadius then
      let newLaser :=
        {| Laser.id := nextId s;
           Laser.x := relativeX;
           Laser.y := relativeY;
           Laser.fired := true;
           Laser.angle := if shiftKey e then 90 else 0;
           Laser.direction := dir_right |} in
      setNextId (setLasers s (lasers s ++ [newLaser])) (nextId s + 1)
    else s.

Definition handleLaserDoubleClick (s : State) (id : Z) : State :=
  setLasers s (filter (fun laser => negb (Z.eqb (Laser.id laser) id)) (lasers s)).

Definition handleLaserMouseDown (s : State) (e : MouseEvent) (id : Z) : State :=
  if Z.eqb (button e) 0 then
    setDragOffset
      (setDraggedLaserId (setIsDragging s true) (Some id))
      (mkXY (clientX e - rect_left e) (clientY e - rect_top e))
  else if Z.eqb (button e) 2 then
    if shiftKey e then
      match find (fun l => Z.eqb (Laser.id l) id) (lasers s) with
      | Some laser =>
          let rs := BH_SIZE s * 0.25 in
          let xInRs := Laser.x laser / rs in
          let yInRs := (- Laser.y laser) / rs in
          let displayAngle := displayAngleOf (Laser.angle laser) in
          setEditingLaserId
            (setTempInputValues s
               (TempInput.mk (toFixed xInRs 2) (toFixed yInRs 2)
                  (toFixed displayAngle 1)))
            (Some id)
      | None => s
      end
    else setLastMouseX (setRotatingLaserId s (Some id)) (Some (clientX e))
  else s.

(** The mapping [handleLaserEdit] applies to every ray once the value
    has parsed. *)
Definition editLaser (field : Field) (numValue rs : R) (laser : Laser.t)
  : Laser.t :=
  match field with
  | field_x => Laser.with_x laser (numValue * rs)
  | field_y => Laser.with_y laser ((- numValue) * rs)
  | field_angle =>
      Laser.with_angle laser (js_rem (js_rem (- numValue) 360 + 360) 360)
  end.

Definition handleLaserEdit (s : State) (field : Field) (value : string)
  : State :=
  match editingLaserId s with
  | Some editing =>
      let s1 := setTempInputValues s (TempInput.set (tempInputValues s) field value) in
      match parseFloat value with
      | Some numValue =>
          let rs := BH_SIZE s * 0.25 in
          setLasers s1
            (map (fun laser =>
                    if Z.eqb (Laser.id laser) editing
                    then editLaser field numValue rs laser
                    else laser)
               (lasers s))
      | None => s1
      end
  | None => s
  end.

Definition handleCloseLaserEdit (s : State) : State :=
  setEditingLaserId s None.

Definition handleMouseMove (s : State) (e : MouseEvent) : State :=
  match rotatingLaserId s, lastMouseX s with
  | Some rotating, Some lastX =>
      let deltaX := clientX e - lastX in
      setLastMouseX
        (setLasers s
           (map (fun laser =>
                   if Z.eqb (Laser.id laser) rotating
                   then Laser.with_angle laser
                          (normalizeAngle (Laser.angle laser + deltaX * 0.5))
                   else laser)
              (lasers s)))
        (Some (clientX e))
  | _, _ =>
      match isDragging s, draggedLaserId s with
      | true, Some dragged =>
          let x := clientX e - rect_left e in
          let y := clientY e - rect_top e in
          let relativeX :=
            (x - xy_x (BH_CENTER s) - xy_x (panOffset s)) / zoom s in
          let relativeY :=
            (y - xy_y (BH_CENTER s) - xy_y (panOffset s)) / zoom s in
          setLasers s
            (map (fun laser =>
                    if Z.eqb (Laser.id laser) dragged
                    then Laser.with_y (Laser.with_x laser relativeX) relativeY
                    else laser)
               (lasers s))
      | _, _ =>
          if isPanning s then
            let deltaX := clientX e - xy_x (panStart s) in
            let deltaY := clientY e - xy_y (panStart s) in
            setPanOffset s (mkXY deltaX deltaY)
          else s
      end
  end.

Definition handleMouseDown (s : State) (e : MouseEvent) : State :=
  if Z.eqb (button e) 1 || (Z.eqb (button e) 0 && altKey e) then
    setPanStart (setIsPanning s true)
      (mkXY (clientX e - xy_x (panOffset s)) (clientY e - xy_y (panOffset s)))
  else s.

Definition handleMouseUp (s : State) (e : MouseEvent) : State :=
  if Z.eqb (button e) 0 then
    let s1 := setDraggedLaserId (setIsDragging s false) None in
    if isPanning s then setWasPanning (setIsPanning s1 false) true else s1
  else if Z.eqb (button e) 2 then
    setLastMouseX (setRotatingLaserId s None) None
  else if Z.eqb (button e) 1 then
    if isPanning s then setWasPanning (setIsPanning s false) true else s
  else s.

Definition handleCleanAll (s : State) : State := setLasers s [].

(** Everything the user (or the window) can do to the component. *)
Inductive Event : Type :=
| Wheel (deltaY : R)
| CanvasClick (e : MouseEvent)
| LaserDoubleClick (id : Z)
| LaserMouseDown (e : MouseEvent) (id : Z)
| LaserEdit (field : Field) (value : string)
| CloseLaserEdit
| MouseMove (e : MouseEvent)
| MouseDown (e : MouseEvent)
| MouseUp (e : MouseEvent)
| CleanAll
| ToggleGravity
| ToggleGrid
| ZoomOutButton
| ZoomInButton
| Resize (newSize : Size).

Definition step (s : State) (ev : Event) : State :=
  match ev with
  | Wheel deltaY => handleWheel s deltaY
  | CanvasClick e => handleCanvasClick s e
  | LaserDoubleClick id => handleLaserDoubleClick s id
  | LaserMouseDown e id => handleLaserMouseDown s e id
  | LaserEdit field value => handleLaserEdit s field value
  | CloseLaserEdit => handleCloseLaserEdit s
  | MouseMove e => handleMouseMove s e
  | MouseDown e => handleMouseDown s e
  | MouseUp e => handleMouseUp s e
  | CleanAll => handleCleanAll s
  | ToggleGravity => setGravityEnabled s (negb (gravityEnabled s))
  | ToggleGrid => setShowGrid s (negb (showGrid s))
  | ZoomOutButton => setZoom s (Math.max minZoom (zoom s - 0.2))
  | ZoomInButton => setZoom s (Math.min maxZoom (zoom s + 0.2))
  | Resize newSize => setSize s newSize
  end.

Definition run (s : State) (evs : list Event) : State := fold_left step evs s.

(** The scene states that some sequence of events produces. *)
Definition reachable (s : State) : Prop :=
  exists evs, s = run initialState evs.

(** The path the renderer draws for a fired ray. *)
Definition renderedPath (s : State) (laser : Laser.t) : list Point.t :=
  Solver.calculateLightPath
    (Laser.x laser + sz_width (size s) / 2)
    (Laser.y laser + sz_height (size s) / 2)
    (Laser.angle laser)
    (sz_width (size s)) (sz_height (size s))
    (BH_SIZE s) (zoom s) (gravityEnabled s).

(** Every id that a ray of the scene carried at some point of the
    run of [evs] from [s]. *)
Fixpoint idsSeen (s : State) (evs : list Event) : list Z :=
  map Laser.id (lasers s) ++
  match evs with
  | [] => []
  | ev :: evs' => idsSeen (step s ev) evs'
  end.

End BlackHoleComponent.


(** ** Scene changes and scene invariants *)

(** The three ways in which an event can change the ray list: replace
    rays in place (keeping each id, and leaving each angle alone or
    setting it to a normalized value), drop rays, or append one new ray
    that takes the current counter value. *)
Inductive SceneChange (s s' : State) : Prop :=
| change_map (f : Laser.t -> Laser.t) :
    lasers s' = map f (lasers s) ->
    nextId s' = nextId s ->
    (forall l, Laser.id (f l) = Laser.id l) ->
    (forall l, Laser.angle (f l) = Laser.angle l \/
               0 <= Laser.angle (f l) < 360) ->
    SceneChange s s'
| change_filter (keep : Laser.t -> bool) :
    lasers s' = filter keep (lasers s) ->
    nextId s' = nextId s ->
    SceneChange s s'
| change_create (newLaser : Laser.t) :
    lasers s' = lasers s ++ [newLaser] ->
    nextId s' = (nextId s + 1)%Z ->
    Laser.id newLaser = nextId s ->
    Laser.angle newLaser = 0 \/ Laser.angle newLaser = 90 ->
    SceneChange s s'.

(** Every angle of the scene is normalized. *)
Definition anglesNormalized (s : State) : Prop :=
  Forall (fun l => 0 <= Laser.angle l < 360) (lasers s).

(** No two rays share an id and every id lies below the counter. *)
Definition idsFresh (s : State) : Prop :=
  NoDup (map Laser.id (lasers s)) /\
  Forall (fun l => (Laser.id l < nextId s)%Z) (lasers s).

(** ** Sample inputs *)

(** A click on the center of the playground (320, 400) of the initial
    800 x 800 window. *)
Definition centerClick : MouseEvent := mkMouseEvent 320 400 0 false false 0 0.


(** A shift-click 300 pixels to the right of the body center. *)
Definition outsideClick : MouseEvent := mkMouseEvent 620 400 0 true false 0 0.

(** A text parser that knows the numeral 2 only, and the scene in which
    ray 0 is open in the edit dialog. *)
Definition parseTwo (value : string) : option R :=
  if String.eqb value "2" then Some 2 else None.


(** A number formatter that is good enough for the examples. *)
Definition toFixedBlank (n : R) (digits : nat) : string := "".

(** The secondary button goes down on ray 0 without shift (a rotate-drag
    starts), then the pointer moves 20 pixels to the right. *)
Definition secondaryDown : MouseEvent := mkMouseEvent 620 400 2 false false 0 0.
Definition pointerAt640 : MouseEvent := mkMouseEvent 640 400 0 false false 0 0.

Definition rotatingRay0 : State :=
  handleLaserMouseDown toFixedBlank
    (handleCanvasClick initialState outsideClick) secondaryDown 0%Z.

(** ** Further invariants of the component state *)

(** The zoom factor is within its limits. *)
Definition zoomInRange (s : State) : Prop := minZoom <= zoom s <= maxZoom.

(** The gesture cells move together: a ray is being rotated exactly when
    a last pointer position is recorded, and a drag is in progress
    exactly when a dragged ray is recorded. *)
Definition gesturesConsistent (s : State) : Prop :=
  (rotatingLaserId s = None <-> lastMouseX s = None) /\
  (isDragging s = true <-> draggedLaserId s <> None).

(** Every ray is fired and carries the default direction tag. *)
Definition allFired (s : State) : Prop :=
  Forall (fun l => Laser.fired l = true /\ Laser.direction l = dir_right)
    (lasers s).

(** ** More sample inputs *)

(** The middle button goes down at (100, 100) and up at (130, 90). *)
Definition middleDown : MouseEvent := mkMouseEvent 100 100 1 false false 0 0.
Definition middleUp : MouseEvent := mkMouseEvent 130 90 1 false false 0 0.


(** The primary and the secondary button go up. *)
Definition primaryUp : MouseEvent := mkMouseEvent 640 400 0 false false 0 0.
Definition secondaryUp : MouseEvent := mkMouseEvent 640 400 2 false false 0 0.


(** ** Helpers of the module

    Function to calculate distance in Schwarzschild radius units. *)
Definition calculateDistanceInRs (x y BH_SIZE : R) : R :=
  let distanceFromCenter := sqrt (x * x + y * y) in
  let blackHoleRadius := BH_SIZE * 0.25 in
  distanceFromCenter / blackHoleRadius.

(** ** The star field *)

Definition STAR_COUNT : nat := 200.
Definition STAR_SIZE : R := 1.2.

Module Star.
Record t : Type := mk { x : R; y : R; r : R; o : R }.
End Star.

(** Function to generate stars with consistent positions: star [i] is
    derived from the seed [i * 16807 % 2147483647]. *)
Definition generateStars (width height : R) : list Star.t :=
  map (fun i : nat =>
         let seed := js_rem (INR i * 16807) 2147483647 in
         let x := js_rem seed width in
         let y := js_rem (js_rem (seed * 16807) 2147483647) height in
         let r := js_rem (js_rem (seed * 16807) 2147483647) STAR_SIZE + 0.2 in
         let o := js_rem (js_rem (seed * 16807) 2147483647) 0.7 + 0.3 in
         Star.mk x y r o)
    (seq 0 STAR_COUNT).

(** ** The first version of the path: straight steps of 10 pixels

    The earlier [calculateLightPath] of the file walks along the
    direction of emission until it meets the body or leaves the screen.
    Its loop is [while (true)]: [fuel] bounds the number of iterations of
    the model and [None] stands for a loop that is still running when the
    fuel is used up.  The counter [steps] is kept as the source has it;
    the [break] it guarded is commented out. *)
Module StraightPath.
Section Walk.

Variables (startX startY angle width height bhSize : R).

Definition stepSize : R := 10.
Definition angleRad : R := (angle * Math.PI) / 180.

(* direction vector *)
Definition dx : R := Math.cos angleRad.
Definition dy : R := Math.sin angleRad.

(* black hole parameters *)
Definition blackHoleRadius : R := bhSize * 0.25.
Definition centerX : R := width / 2.
Definition centerY : R := height / 2.

(* start position in relative coordinates *)
Definition relativeStartX : R := startX - centerX.
Definition relativeStartY : R := startY - centerY.

Definition hitsBlackHole (currentX currentY : R) : bool :=
  let distToCenter := sqrt (currentX * currentX + currentY * currentY) in
  let distInRs := distToCenter / blackHoleRadius in
  Rleb distInRs 1.

Definition hitsScreenEdge (currentX currentY : R) : bool :=
  Rltb (currentX + centerX) 0
  || Rgtb (currentX + centerX) width
  || Rltb (currentY + centerY) 0
  || Rgtb (currentY + centerY) height.

Definition pointAt (currentX currentY : R) : Point.t :=
  let distToCenter := sqrt (currentX * currentX + currentY * currentY) in
  let distInRs := distToCenter / blackHoleRadius in
  {| Point.x := currentX + centerX;
     Point.y := currentY + centerY;
     Point.distToCenter := distInRs |}.

Fixpoint walk (fuel : nat) (currentX currentY : R) (steps : nat)
         (points : list Point.t) : option (list Point.t) :=
  match fuel with
  | O => None
  | S fuel' =>
      if hitsBlackHole currentX currentY then Some points
      else if hitsScreenEdge currentX currentY then Some points
      else
        walk fuel' (currentX + dx * stepSize) (currentY + dy * stepSize)
          (S steps) (points ++ [pointAt currentX currentY])
  end.

Definition calculateLightPath (fuel : nat) : option (list Point.t) :=
  walk fuel relativeStartX relativeStartY 0 [].

End Walk.
End StraightPath.

(** What the first version records for a point of the walk: the distance
    to the center in body radii, above 1; a position on the screen; a
    position on the ray of emission. *)
Definition recordedOnWalk (startX startY angle width height bhSize : R)
           (p : Point.t) : Prop :=
  Point.distToCenter p
  = calculateDistanceInRs (Point.x p - width / 2) (Point.y p - height / 2)
      bhSize /\
  1 < Point.distToCenter p /\
  0 <= Point.x p <= width /\ 0 <= Point.y p <= height /\
  onRayWithin 0 startX startY angle p.

(** Shift is held while the secondary button goes down on a ray. *)
Definition shiftSecondaryDown : MouseEvent :=
  mkMouseEvent 620 400 2 true false 0 0.


(** The scene after one shift-click outside the body. *)
Definition oneRay : State := handleCanvasClick initialState outsideClick.

(** * Proofs *)

(** ** Comparisons *)

Lemma Rleb_true a b : Rleb a b = true <-> a <= b.
Proof. unfold Rleb; destruct (Rle_dec a b); split; (congruence || tauto). Qed.

Lemma Rleb_false a b : Rleb a b = false <-> b < a.
Proof.
  unfold Rleb; destruct (Rle_dec a b); split; try congruence; try lra.
Qed.

Lemma Rltb_true a b : Rltb a b = true <-> a < b.
Proof. unfold Rltb; destruct (Rlt_dec a b); split; (congruence || tauto). Qed.

Lemma Rltb_false a b : Rltb a b = false <-> b <= a.
Proof.
  unfold Rltb; destruct (Rlt_dec a b); split; try congruence; try lra.
Qed.

Lemma Rgtb_true a b : Rgtb a b = true <-> a > b.
Proof. unfold Rgtb; rewrite Rltb_true; lra. Qed.

Lemma Rgtb_false a b : Rgtb a b = false <-> a <= b.
Proof. unfold Rgtb; rewrite Rltb_false; lra. Qed.

(** ** The integration loop *)

Section SolverFacts.

Variables (startX startY angleDeg width height bhSize zoom : R).
Variable gravityEnabled : bool.

Local Abbreviation integrate :=
  (Solver.integrate startX startY angleDeg width height bhSize zoom
     gravityEnabled).
Local Abbreviation stateAt :=
  (Solver.stateAt startX startY angleDeg width height bhSize gravityEnabled).
Local Abbreviation captured := (Solver.captured bhSize gravityEnabled).
Local Abbreviation escaped := (Solver.escaped width height zoom).
Local Abbreviation pushed := (Solver.pushed width height zoom).
Local Abbreviation pointsOf :=
  (Solver.pointsOf startX startY angleDeg width height bhSize zoom
     gravityEnabled).
Local Abbreviation calculateLightPath :=
  (Solver.calculateLightPath startX startY angleDeg width height bhSize zoom
     gravityEnabled).

Lemma stateAt_0 :
  stateAt 0
  = (Solver.r0 startX startY width height,
     Solver.phi0 startX startY width height,
     Solver.p_r0 startX startY angleDeg width height).
Proof. reflexivity. Qed.

Lemma stateAt_S k :
  stateAt (S k)
  = rk4 (stateAt k) (Solver.h bhSize)
      (Solver.derivs startX startY angleDeg width height bhSize gravityEnabled).
Proof. reflexivity. Qed.

(** The call is the loop run from the initial state with the full
    budget and an empty array. *)
Lemma path_unfold : calculateLightPath = integrate maxSteps (stateAt 0) [].
Proof. unfold Solver.calculateLightPath. reflexivity. Qed.

Lemma integrate_length n :
  forall y pts, (length (integrate n y pts) <= length pts + n)%nat.
Proof.
  induction n as [|n IH]; intros y pts; simpl.
  - lia.
  - destruct (captured y); [lia|].
    destruct (escaped y); [lia|].
    specialize (IH (rk4 y (Solver.h bhSize)
                      (Solver.derivs startX startY angleDeg width height
                         bhSize gravityEnabled))
                  (pts ++ [pushed y])).
    rewrite length_app in IH; simpl in IH; lia.
Qed.

(** As long as neither [break] fires the loop appends one point per
    iteration. *)
Lemma integrate_run m :
  forall n k pts,
    (forall j, (k <= j < k + m)%nat ->
               captured (stateAt j) = false /\ escaped (stateAt j) = false) ->
    integrate (m + n) (stateAt k) pts =
    integrate n (stateAt (k + m))
      (pts ++ map (fun j => pushed (stateAt j)) (seq k m)).
Proof.
  induction m as [|m IH]; intros n k pts Hrun.
  - simpl. rewrite Nat.add_0_r, app_nil_r. reflexivity.
  - destruct (Hrun k ltac:(lia)) as [Hc He].
    change (S m + n)%nat with (S (m + n)).
    cbn [Solver.integrate]. rewrite Hc, He.
    change (rk4 (stateAt k) (Solver.h bhSize)
              (Solver.derivs startX startY angleDeg width height bhSize
                 gravityEnabled))
      with (stateAt (S k)).
    rewrite IH by (intros j Hj; apply Hrun; lia).
    replace (S k + m)%nat with (k + S m)%nat by lia.
    cbn [seq map]. rewrite <- app_assoc. reflexivity.
Qed.

Lemma integrate_stop n y pts :
  captured y = true \/ escaped y = true -> integrate n y pts = pts.
Proof.
  intros Hstop. destruct n as [|n]; [reflexivity|]. cbn [Solver.integrate].
  destruct (captured y); [reflexivity|].
  destruct Hstop as [Hc|He]; [discriminate|]. rewrite He. reflexivity.
Qed.

(** The path is the list of the points of the iterations before the
    first one at which a [break] fires. *)
Lemma path_until_stop k :
  (k < maxSteps)%nat ->
  (forall j, (j < k)%nat ->
             captured (stateAt j) = false /\ escaped (stateAt j) = false) ->
  captured (stateAt k) = true \/ escaped (stateAt k) = true ->
  calculateLightPath = pointsOf k.
Proof.
  intros Hk Hrun Hstop. unfold Solver.calculateLightPath.
  replace maxSteps with (k + (maxSteps - k))%nat by lia.
  rewrite <- stateAt_0.
  rewrite integrate_run by (intros j Hj; apply Hrun; lia).
  rewrite integrate_stop by exact Hstop. reflexivity.
Qed.

Lemma path_budget :
  (forall j, (j < maxSteps)%nat ->
             captured (stateAt j) = false /\ escaped (stateAt j) = false) ->
  calculateLightPath = pointsOf maxSteps.
Proof.
  intros Hrun. unfold Solver.calculateLightPath.
  replace maxSteps with (maxSteps + 0)%nat at 1 by lia.
  rewrite <- stateAt_0.
  rewrite integrate_run by (intros j Hj; apply Hrun; lia).
  reflexivity.
Qed.

Lemma pointsOf_length k : length (pointsOf k) = k.
Proof. unfold Solver.pointsOf. rewrite length_map, length_seq. reflexivity. Qed.

End SolverFacts.

(** ** Values of the primitives *)

Lemma hypot_nonneg a b : 0 <= Math.hypot a b.
Proof. unfold Math.hypot. apply sqrt_pos. Qed.

Lemma hypot_axis a : 0 <= a -> Math.hypot a 0 = a.
Proof.
  intros Ha. unfold Math.hypot.
  replace (a * a + 0 * 0) with (a * a) by ring.
  apply sqrt_square, Ha.
Qed.

Lemma hypot_polar r phi :
  Math.hypot (r * Math.cos phi) (r * Math.sin phi) = Rabs r.
Proof.
  unfold Math.hypot, Math.cos, Math.sin.
  replace (r * cos phi * (r * cos phi) + r * sin phi * (r * sin phi))
    with (r² * ((sin phi)² + (cos phi)²)) by (unfold Rsqr; ring).
  rewrite sin2_cos2, Rmult_1_r. apply sqrt_Rsqr_abs.
Qed.

Lemma atan2_axis a : 0 < a -> Math.atan2 0 a = 0.
Proof.
  intros Ha. unfold Math.atan2.
  replace (Rltb 0 a) with true by (symmetry; apply Rltb_true; exact Ha).
  replace (0 / a) with 0 by (unfold Rdiv; ring).
  apply atan_0.
Qed.

Lemma cos_bounds phi : -1 <= Math.cos phi <= 1.
Proof. apply COS_bound. Qed.

Lemma sin_bounds phi : -1 <= Math.sin phi <= 1.
Proof. apply SIN_bound. Qed.

(** Settle a comparison between closed real expressions. *)
Ltac rcompare :=
  repeat match goal with
  | |- context [Rleb ?a ?b] =>
      first [ replace (Rleb a b) with true by (symmetry; apply Rleb_true; lra)
            | replace (Rleb a b) with false by (symmetry; apply Rleb_false; lra) ]
  | |- context [Rltb ?a ?b] =>
      first [ replace (Rltb a b) with true by (symmetry; apply Rltb_true; lra)
            | replace (Rltb a b) with false by (symmetry; apply Rltb_false; lra) ]
  end.

Section SolverSteps.

Variables (startX startY angleDeg width height bhSize zoom : R).
Variable gravityEnabled : bool.

Local Abbreviation integrate :=
  (Solver.integrate startX startY angleDeg width height bhSize zoom
     gravityEnabled).
Local Abbreviation derivs :=
  (Solver.derivs startX startY angleDeg width height bhSize gravityEnabled).
Local Abbreviation stateAt :=
  (Solver.stateAt startX startY angleDeg width height bhSize gravityEnabled).
Local Abbreviation captured := (Solver.captured bhSize gravityEnabled).
Local Abbreviation escaped := (Solver.escaped width height zoom).
Local Abbreviation pushed := (Solver.pushed width height zoom).
Local Abbreviation L := (Solver.L startX startY angleDeg width height).
Local Abbreviation calculateLightPath :=
  (Solver.calculateLightPath startX startY angleDeg width height bhSize zoom
     gravityEnabled).

Lemma integrate_S n y pts :
  integrate (S n) y pts =
  if captured y then pts
  else if escaped y then pts
  else integrate n (rk4 y (Solver.h bhSize) derivs) (pts ++ [pushed y]).
Proof. reflexivity. Qed.

Lemma integrate_app n :
  forall y pts, integrate n y pts = pts ++ integrate n y [].
Proof.
  induction n as [|n IH]; intros y pts.
  - simpl. now rewrite app_nil_r.
  - rewrite !integrate_S.
    destruct (captured y); [now rewrite app_nil_r|].
    destruct (escaped y); [now rewrite app_nil_r|].
    rewrite IH. rewrite (IH _ ([] ++ [pushed y])).
    now rewrite <- app_assoc.
Qed.

Lemma integrate_Forall (P : Point.t -> Prop) n :
  (forall y, P (pushed y)) ->
  forall y pts, Forall P pts -> Forall P (integrate n y pts).
Proof.
  intros HP. induction n as [|n IH]; intros y pts Hpts; [exact Hpts|].
  rewrite integrate_S.
  destruct (captured y); [exact Hpts|].
  destruct (escaped y); [exact Hpts|].
  apply IH. apply Forall_app. split; [exact Hpts|].
  constructor; [apply HP | constructor].
Qed.

(** What the loop stores in the [distToCenter] field of every point. *)
Lemma path_distToCenter :
  Forall (fun p => Point.distToCenter p = zoom) calculateLightPath.
Proof.
  unfold Solver.calculateLightPath. apply integrate_Forall.
  - intros y. reflexivity.
  - constructor.
Qed.

(** A ray without angular momentum keeps its polar angle and its radial
    momentum: the derivative is [(p_r, 0, 0)]. *)
Lemma derivs_radial r phi p_r :
  L = 0 -> derivs (r, phi, p_r) = (p_r, 0, 0).
Proof.
  intros HL. unfold Solver.derivs. rewrite HL.
  f_equal; [f_equal|]; unfold Rdiv; ring.
Qed.

Lemma rk4_radial r phi p_r hh :
  L = 0 -> rk4 (r, phi, p_r) hh derivs = (r + hh * p_r, phi, p_r).
Proof.
  intros HL. unfold rk4. rewrite !derivs_radial by exact HL.
  f_equal; [f_equal|]; field.
Qed.

Lemma stateAt_radial k :
  L = 0 ->
  stateAt k =
  (Solver.r0 startX startY width height
     + INR k * Solver.h bhSize * Solver.p_r0 startX startY angleDeg width height,
   Solver.phi0 startX startY width height,
   Solver.p_r0 startX startY angleDeg width height).
Proof.
  intros HL. induction k as [|k IH].
  - simpl. f_equal. f_equal. ring.
  - cbn [Solver.stateAt]. rewrite IH, rk4_radial by exact HL.
    rewrite S_INR. f_equal. f_equal. ring.
Qed.

End SolverSteps.

Lemma max_same a : Math.max a a = a.
Proof. unfold Math.max, Rmax. destruct (Rle_dec a a); reflexivity. Qed.

(** A ray that starts on the horizontal axis to the right of the body:
    polar coordinates of the start and the components of the direction. *)
Lemma start_on_axis a width height :
  0 < a ->
  Solver.r0 (width / 2 + a) (height / 2) width height = a /\
  Solver.phi0 (width / 2 + a) (height / 2) width height = 0.
Proof.
  intros Ha.
  unfold Solver.r0, Solver.phi0, Solver.relX0, Solver.relY0, Solver.centerX,
    Solver.centerY.
  replace (width / 2 + a - width / 2) with a by lra.
  replace (height / 2 - height / 2) with 0 by lra.
  split; [apply hypot_axis; lra | apply atan2_axis; exact Ha].
Qed.

Lemma frame_on_axis a angleDeg width height :
  0 < a ->
  Solver.p_r0 (width / 2 + a) (height / 2) angleDeg width height
    = Solver.vx angleDeg /\
  Solver.L (width / 2 + a) (height / 2) angleDeg width height
    = Solver.vy angleDeg * a.
Proof.
  intros Ha. destruct (start_on_axis a width height Ha) as [Hr Hphi].
  unfold Solver.p_r0, Solver.L, Solver.n_r, Solver.n_phi.
  rewrite Hr, Hphi. unfold Math.cos, Math.sin. rewrite cos_0, sin_0.
  split; ring.
Qed.

Lemma direction_0 : Solver.vx 0 = 1 /\ Solver.vy 0 = 0.
Proof.
  unfold Solver.vx, Solver.vy, Solver.angle, Math.cos, Math.sin, Math.PI.
  replace (0 * PI / 180) with 0 by lra.
  split; [apply cos_0 | apply sin_0].
Qed.

Lemma direction_90 : Solver.vx 90 = 0 /\ Solver.vy 90 = 1.
Proof.
  unfold Solver.vx, Solver.vy, Solver.angle, Math.cos, Math.sin, Math.PI.
  replace (90 * PI / 180) with (PI / 2) by lra.
  split; [apply cos_PI2 | apply sin_PI2].
Qed.

Lemma direction_180 : Solver.vx 180 = -1 /\ Solver.vy 180 = 0.
Proof.
  unfold Solver.vx, Solver.vy, Solver.angle, Math.cos, Math.sin, Math.PI.
  replace (180 * PI / 180) with PI by lra.
  split; [apply cos_PI | apply sin_PI].
Qed.

(** A point at distance [|r|] from the center of an 800 x 800 canvas at
    zoom 1 is inside the escape bounds when [|r| <= 400]. *)
Lemma not_escaped_near_center r phi p_r :
  Rabs r <= 400 -> Solver.escaped 800 800 1 (r, phi, p_r) = false.
Proof.
  intros Hr. unfold Solver.escaped, Solver.xPix, Solver.yPix.
  replace (r * Math.cos phi + Solver.centerX 800 - Solver.centerX 800)
    with (r * Math.cos phi) by ring.
  replace (r * Math.sin phi + Solver.centerY 800 - Solver.centerY 800)
    with (r * Math.sin phi) by ring.
  rewrite hypot_polar. unfold Solver.maxDistance. rewrite max_same.
  unfold Solver.centerX, Solver.centerY.
  assert (Hr' : -400 <= r <= 400).
  { unfold Rabs in Hr. destruct (Rcase_abs r); lra. }
  pose proof (cos_bounds phi) as Hcb. pose proof (sin_bounds phi) as Hsb.
  assert (Hc : -400 <= r * Math.cos phi <= 400) by nra.
  assert (Hs : -400 <= r * Math.sin phi <= 400) by nra.
  repeat (apply orb_false_intro);
    first [apply Rgtb_false | apply Rltb_false]; lra.
Qed.

(** ** The geodesic solver: the claims *)

(** C4.  For every input the call returns (the model is a total function)
    and the returned sequence has at most 4000 points; when neither the
    capture test nor the escape test fires during the 4000 iterations the
    step budget ends the loop with exactly 4000 points. *)
Theorem calculateLightPath_step_budget :
  forall startX startY angleDeg width height bhSize zoom gravityEnabled,
    (length (Solver.calculateLightPath startX startY angleDeg width height
               bhSize zoom gravityEnabled) <= 4000)%nat /\
    ((forall j, (j < 4000)%nat ->
        Solver.captured bhSize gravityEnabled
          (Solver.stateAt startX startY angleDeg width height bhSize
             gravityEnabled j) = false /\
        Solver.escaped width height zoom
          (Solver.stateAt startX startY angleDeg width height bhSize
             gravityEnabled j) = false) ->
     length (Solver.calculateLightPath startX startY angleDeg width height
               bhSize zoom gravityEnabled) = 4000%nat).
Proof.
  intros startX startY angleDeg width height bhSize zoom gravityEnabled. split.
  - unfold Solver.calculateLightPath.
    apply (integrate_length startX startY angleDeg width height bhSize zoom
             gravityEnabled maxSteps _ []).
  - intros Hrun. rewrite path_budget by exact Hrun.
    apply pointsOf_length.
Qed.

(** The degenerate start: a ray placed exactly on the body center has
    radius 0, the capture test fires in the first iteration and the path
    is empty, with or without gravitation. *)
Lemma path_from_center_empty
      angleDeg width height bhSize zoom gravityEnabled :
  0 <= bhSize ->
  Solver.calculateLightPath (width / 2) (height / 2) angleDeg width height
    bhSize zoom gravityEnabled = [].
Proof.
  intros Hb. unfold Solver.calculateLightPath. apply integrate_stop. left.
  unfold Solver.captured, Solver.r0, Solver.relX0, Solver.relY0,
    Solver.centerX, Solver.centerY.
  replace (width / 2 - width / 2) with 0 by lra.
  replace (height / 2 - height / 2) with 0 by lra.
  rewrite hypot_axis by lra.
  apply Rleb_true.
  unfold Solver.effectiveRs, Solver.rs, Solver.massFactor.
  destruct gravityEnabled; lra.
Qed.

(** C1 (the code departs from the claim).  The call
    [calculateLightPath(700, 400, 0, 800, 800, 600, 1, false)] returns a
    sequence whose first point is (700, 400): it lies 300 pixels from the
    center, that is 2 body radii, and its [distToCenter] field holds 1,
    the zoom factor. *)
Theorem distToCenter_holds_zoom :
  exists p rest,
    Solver.calculateLightPath 700 400 0 800 800 600 1 false = p :: rest /\
    Point.x p = 700 /\ Point.y p = 400 /\
    Point.distToCenter p = 1 /\
    Math.hypot (Point.x p - 800 / 2) (Point.y p - 800 / 2) / (600 * 0.25) = 2.
Proof.
  destruct (start_on_axis 300 800 800 ltac:(lra)) as [Hr0 Hphi0].
  replace (800 / 2 + 300) with 700 in Hr0, Hphi0 by lra.
  replace (800 / 2) with 400 in Hr0, Hphi0 by lra.
  exists (Point.mk 700 400 1). eexists. split.
  - unfold Solver.calculateLightPath. change maxSteps with (S 3999).
    rewrite integrate_S, integrate_app.
    rewrite not_escaped_near_center by (rewrite Hr0, Rabs_pos_eq; lra).
    unfold Solver.captured, Solver.pushed, Solver.xPix, Solver.yPix.
    rewrite Hr0, Hphi0.
    unfold Math.cos, Math.sin. rewrite cos_0, sin_0.
    unfold Solver.effectiveRs, Solver.rs, Solver.massFactor, Solver.centerX,
      Solver.centerY.
    rcompare. cbn [app].
    replace (300 * 1 + 800 / 2) with 700 by lra.
    replace (300 * 0 + 800 / 2) with 400 by lra.
    reflexivity.
  - cbn [Point.x Point.y Point.distToCenter].
    repeat split; try lra.
    replace (700 - 800 / 2) with 300 by lra.
    replace (400 - 800 / 2) with 0 by lra.
    rewrite hypot_axis by lra. lra.
Qed.

(** C3 as stated fails: with gravitation switched off the capture test
    is [r <= 0] and it does fire.  For a ray sitting on the body center
    it fires in the first iteration; for a ray aimed at the center from
    10 pixels away the radius steps 10, 8.5, ..., 1, -0.5 and the test
    fires in iteration 7. *)
Lemma capture_fires_without_gravity :
  Solver.captured 600 false
    (Solver.stateAt 400 400 0 800 800 600 false 0) = true /\
  Solver.calculateLightPath 400 400 0 800 800 600 1 false = [] /\
  Solver.captured 600 false
    (Solver.stateAt 410 400 180 800 800 600 false 7) = true.
Proof.
  split; [|split].
  - cbn [Solver.stateAt]. unfold Solver.captured, Solver.r0, Solver.relX0,
      Solver.relY0, Solver.centerX, Solver.centerY.
    replace (400 - 800 / 2) with 0 by lra.
    rewrite hypot_axis by lra.
    unfold Solver.effectiveRs, Solver.rs, Solver.massFactor.
    apply Rleb_true. lra.
  - replace 400 with (800 / 2) at 1 2 by lra.
    apply path_from_center_empty. lra.
  - destruct (start_on_axis 10 800 800 ltac:(lra)) as [Hr0 Hphi0].
    destruct (frame_on_axis 10 180 800 800 ltac:(lra)) as [Hp HL].
    destruct direction_180 as [Hvx Hvy]. rewrite Hvx in Hp. rewrite Hvy in HL.
    replace (800 / 2 + 10) with 410 in * by lra.
    replace (800 / 2) with 400 in * by lra.
    rewrite stateAt_radial by (rewrite HL; ring).
    rewrite Hr0, Hp. unfold Solver.captured, Solver.h, Solver.effectiveRs,
      Solver.rs, Solver.massFactor.
    apply Rleb_true. simpl INR. lra.
Qed.

(** C3 (amended).  The capture test [r <= rs_eff * 1.001] comes first in
    every iteration, before the point is appended: when it fires in
    iteration [k], after [k] iterations in which neither test fired, the
    returned sequence is exactly the points of iterations 0 .. k-1, so
    the point of iteration [k] is not appended and the sequence ends at
    the prior point.  With gravitation off the test reads [r <= 0]. *)
Theorem capture_ends_path_at_prior_point :
  forall startX startY angleDeg width height bhSize zoom gravityEnabled k,
    (k < 4000)%nat ->
    (forall j, (j < k)%nat ->
        Solver.captured bhSize gravityEnabled
          (Solver.stateAt startX startY angleDeg width height bhSize
             gravityEnabled j) = false /\
        Solver.escaped width height zoom
          (Solver.stateAt startX startY angleDeg width height bhSize
             gravityEnabled j) = false) ->
    Solver.captured bhSize gravityEnabled
      (Solver.stateAt startX startY angleDeg width height bhSize
         gravityEnabled k) = true ->
    Solver.calculateLightPath startX startY angleDeg width height bhSize zoom
      gravityEnabled
    = Solver.pointsOf startX startY angleDeg width height bhSize zoom
        gravityEnabled k /\
    fst (fst (Solver.stateAt startX startY angleDeg width height bhSize
                gravityEnabled k))
      <= Solver.effectiveRs bhSize gravityEnabled * 1.001 /\
    (gravityEnabled = false ->
     fst (fst (Solver.stateAt startX startY angleDeg width height bhSize
                 gravityEnabled k)) <= 0).
Proof.
  intros startX startY angleDeg width height bhSize zoom gravityEnabled k
    Hk Hrun Hcap.
  split; [|split].
  - apply path_until_stop; [exact Hk | exact Hrun | left; exact Hcap].
  - unfold Solver.captured in Hcap.
    destruct (Solver.stateAt _ _ _ _ _ _ _ k) as [[r phi] p_r].
    apply Rleb_true in Hcap. exact Hcap.
  - intros Hg. subst gravityEnabled. unfold Solver.captured in Hcap.
    destruct (Solver.stateAt _ _ _ _ _ _ _ k) as [[r phi] p_r].
    apply Rleb_true in Hcap. cbn [fst].
    unfold Solver.effectiveRs, Solver.massFactor in Hcap. lra.
Qed.

(** The ray fired at the body from 151 pixels (the body radius is 150):
    one point is recorded, the next radius is 149.5 and the capture test
    ends the path. *)
Lemma capture_ends_path_at_prior_point_witness :
  Solver.calculateLightPath 551 400 180 800 800 600 1 true
  = Solver.pointsOf 551 400 180 800 800 600 1 true 1 /\
  fst (fst (Solver.stateAt 551 400 180 800 800 600 true 1))
    <= Solver.effectiveRs 600 true * 1.001 /\
  (true = false ->
   fst (fst (Solver.stateAt 551 400 180 800 800 600 true 1)) <= 0).
Proof.
  destruct (start_on_axis 151 800 800 ltac:(lra)) as [Hr0 Hphi0].
  destruct (frame_on_axis 151 180 800 800 ltac:(lra)) as [Hp HL].
  destruct direction_180 as [Hvx Hvy]. rewrite Hvx in Hp. rewrite Hvy in HL.
  replace (800 / 2 + 151) with 551 in * by lra.
  replace (800 / 2) with 400 in * by lra.
  assert (HL0 : Solver.L 551 400 180 800 800 = 0) by (rewrite HL; ring).
  apply (capture_ends_path_at_prior_point 551 400 180 800 800 600 1 true 1).
  - lia.
  - intros j Hj. assert (j = 0)%nat by lia. subst j.
    rewrite stateAt_radial by exact HL0. rewrite Hr0, Hp. split.
    + unfold Solver.captured, Solver.h, Solver.effectiveRs, Solver.rs,
        Solver.massFactor.
      apply Rleb_false. simpl INR. lra.
    + apply not_escaped_near_center. simpl INR.
      rewrite Rabs_pos_eq; unfold Solver.h, Solver.rs; lra.
  - rewrite stateAt_radial by exact HL0. rewrite Hr0, Hp.
    unfold Solver.captured, Solver.h, Solver.effectiveRs, Solver.rs,
      Solver.massFactor.
    apply Rleb_true. simpl INR. lra.
Defined.

(** ** The remainder operator and the normalization of angles *)

Lemma js_rem_nonneg a b : 0 < b -> 0 <= a -> 0 <= js_rem a b < b.
Proof.
  intros Hb Ha. unfold js_rem, trunc.
  assert (Hq : 0 <= a / b).
  { unfold Rdiv. assert (0 < / b) by (apply Rinv_0_lt_compat; exact Hb). nra. }
  replace (Rleb 0 (a / b)) with true by (symmetry; apply Rleb_true; exact Hq).
  pose proof (Zfloor_bound (a / b)) as [Hlo Hhi].
  assert (Hab : a = b * (a / b)) by (field; lra).
  set (n := IZR (Zfloor (a / b))) in *.
  split; nra.
Qed.

Lemma js_rem_range a b : 0 < b -> - b < js_rem a b < b.
Proof.
  intros Hb. destruct (Rle_dec 0 a) as [Ha|Ha].
  - pose proof (js_rem_nonneg a b Hb Ha). lra.
  - unfold js_rem, trunc.
    assert (Hq : a / b < 0).
    { unfold Rdiv. assert (0 < / b) by (apply Rinv_0_lt_compat; exact Hb). nra. }
    replace (Rleb 0 (a / b)) with false by (symmetry; apply Rleb_false; exact Hq).
    pose proof (Zceil_bound (a / b)) as [Hlo Hhi].
    assert (Hab : a = b * (a / b)) by (field; lra).
    set (n := IZR (Zceil (a / b))) in *.
    split; nra.
Qed.

Lemma normalizeAngle_range a : 0 <= normalizeAngle a < 360.
Proof.
  unfold normalizeAngle.
  pose proof (js_rem_range a 360 ltac:(lra)).
  apply js_rem_nonneg; lra.
Qed.

(** ** The scene store *)

Lemma Forall2_map_self {A : Type} (P : A -> A -> Prop) (f : A -> A) xs :
  (forall a, In a xs -> P a (f a)) -> Forall2 P xs (map f xs).
Proof.
  induction xs as [|a xs IH]; intros H; cbn [map]; constructor.
  - apply H. now left.
  - apply IH. intros b Hb. apply H. now right.
Qed.

(** C5.  A click whose world position lies within [rs / zoom] of the body
    center creates nothing: the ray list and the id counter stay as they
    are. *)
Theorem click_inside_body_is_noop :
  forall (s : State) (e : MouseEvent),
    let relativeX :=
      (clientX e - rect_left e - xy_x (BH_CENTER s) - xy_x (panOffset s))
      / zoom s in
    let relativeY :=
      (clientY e - rect_top e - xy_y (BH_CENTER s) - xy_y (panOffset s))
      / zoom s in
    Math.hypot relativeX relativeY <= rs s / zoom s ->
    lasers (handleCanvasClick s e) = lasers s /\
    length (lasers (handleCanvasClick s e)) = length (lasers s) /\
    nextId (handleCanvasClick s e) = nextId s.
Proof.
  intros s e relativeX relativeY Hin.
  assert (Hl : lasers (handleCanvasClick s e) = lasers s /\
               nextId (handleCanvasClick s e) = nextId s).
  { unfold handleCanvasClick.
    destruct (wasPanning s); [split; reflexivity|].
    destruct (isDragging s || isPanning s); [split; reflexivity|].
    fold relativeX relativeY.
    replace (Rgtb (Math.hypot relativeX relativeY) (rs s / zoom s)) with false
      by (symmetry; apply Rgtb_false; exact Hin).
    split; reflexivity. }
  destruct Hl as [Hl Hn]. rewrite Hl. auto.
Qed.

Lemma BH_SIZE_initial : BH_SIZE initialState = 600.
Proof.
  unfold BH_SIZE, Math.min, Rmin. cbn [size initialState sz_width sz_height].
  destruct (Rle_dec 800 800); destruct (Rle_dec 800 600); lra.
Qed.

Lemma click_inside_body_is_noop_witness :
  lasers (handleCanvasClick initialState centerClick) = lasers initialState /\
  length (lasers (handleCanvasClick initialState centerClick))
    = length (lasers initialState) /\
  nextId (handleCanvasClick initialState centerClick) = nextId initialState.
Proof.
  apply (click_inside_body_is_noop initialState centerClick).
  unfold rs. rewrite BH_SIZE_initial.
  unfold BH_CENTER, playgroundWidth, playgroundHeight.
  cbn [size initialState sz_width sz_height xy_x xy_y panOffset zoom
         centerClick clientX clientY rect_left rect_top].
  replace ((320 - 0 - 800 * 0.8 / 2 - 0) / 1) with 0 by lra.
  replace ((400 - 0 - 800 / 2 - 0) / 1) with 0 by lra.
  rewrite hypot_axis by lra. lra.
Defined.

(** C6.  A click that qualifies (no pan just ended, no drag or pan in
    progress, world position outside the body) appends exactly one ray;
    that ray is fired, and its angle is 90 when shift is held and 0
    otherwise. *)
Theorem qualifying_click_creates_fired_ray :
  forall (s : State) (e : MouseEvent),
    let relativeX :=
      (clientX e - rect_left e - xy_x (BH_CENTER s) - xy_x (panOffset s))
      / zoom s in
    let relativeY :=
      (clientY e - rect_top e - xy_y (BH_CENTER s) - xy_y (panOffset s))
      / zoom s in
    wasPanning s = false -> isDragging s = false -> isPanning s = false ->
    Math.hypot relativeX relativeY > rs s / zoom s ->
    exists newLaser,
      lasers (handleCanvasClick s e) = lasers s ++ [newLaser] /\
      Laser.fired newLaser = true /\
      Laser.angle newLaser = (if shiftKey e then 90 else 0) /\
      Laser.x newLaser = relativeX /\ Laser.y newLaser = relativeY.
Proof.
  intros s e relativeX relativeY Hw Hd Hp Hout.
  unfold handleCanvasClick. rewrite Hw, Hd, Hp. cbn [orb].
  fold relativeX relativeY.
  replace (Rgtb (Math.hypot relativeX relativeY) (rs s / zoom s)) with true
    by (symmetry; apply Rgtb_true; exact Hout).
  eexists. split; [reflexivity|]. cbn. auto.
Qed.

Lemma qualifying_click_creates_fired_ray_witness :
  exists newLaser,
    lasers (handleCanvasClick initialState outsideClick)
      = lasers initialState ++ [newLaser] /\
    Laser.fired newLaser = true /\
    Laser.angle newLaser = (if shiftKey outsideClick then 90 else 0) /\
    Laser.x newLaser
      = (clientX outsideClick - rect_left outsideClick
         - xy_x (BH_CENTER initialState) - xy_x (panOffset initialState))
        / zoom initialState /\
    Laser.y newLaser
      = (clientY outsideClick - rect_top outsideClick
         - xy_y (BH_CENTER initialState) - xy_y (panOffset initialState))
        / zoom initialState.
Proof.
  apply (qualifying_click_creates_fired_ray initialState outsideClick);
    try reflexivity.
  unfold rs. rewrite BH_SIZE_initial.
  unfold BH_CENTER, playgroundWidth, playgroundHeight.
  cbn [size initialState sz_width sz_height xy_x xy_y panOffset zoom
         outsideClick clientX clientY rect_left rect_top].
  replace ((620 - 0 - 800 * 0.8 / 2 - 0) / 1) with 300 by lra.
  replace ((400 - 0 - 800 / 2 - 0) / 1) with 0 by lra.
  rewrite hypot_axis by lra. lra.
Defined.

(** Whatever [handleCanvasClick] appends is a fired ray at 0 or 90
    degrees that carries the current value of the id counter, and the
    counter moves on by one. *)
Lemma handleCanvasClick_cases (s : State) (e : MouseEvent) :
  (lasers (handleCanvasClick s e) = lasers s /\
   nextId (handleCanvasClick s e) = nextId s) \/
  (exists newLaser,
     lasers (handleCanvasClick s e) = lasers s ++ [newLaser] /\
     nextId (handleCanvasClick s e) = (nextId s + 1)%Z /\
     Laser.id newLaser = nextId s /\
     Laser.fired newLaser = true /\
     Laser.angle newLaser = (if shiftKey e then 90 else 0)).
Proof.
  unfold handleCanvasClick.
  destruct (wasPanning s); [left; split; reflexivity|].
  destruct (isDragging s || isPanning s); [left; split; reflexivity|].
  match goal with |- context [Rgtb ?a ?b] => destruct (Rgtb a b) end.
  - right. eexists. split; [reflexivity|]. cbn. auto.
  - left. split; reflexivity.
Qed.

(** ** The edit dialog *)

(** What a committed field value means for the ray. *)
Lemma editLaser_commits field numValue rs0 laser :
  match field with
  | field_x =>
      Laser.x (editLaser field numValue rs0 laser) = numValue * rs0 /\
      Laser.y (editLaser field numValue rs0 laser) = Laser.y laser /\
      Laser.angle (editLaser field numValue rs0 laser) = Laser.angle laser
  | field_y =>
      Laser.x (editLaser field numValue rs0 laser) = Laser.x laser /\
      Laser.y (editLaser field numValue rs0 laser) = (- numValue) * rs0 /\
      Laser.angle (editLaser field numValue rs0 laser) = Laser.angle laser
  | field_angle =>
      Laser.x (editLaser field numValue rs0 laser) = Laser.x laser /\
      Laser.y (editLaser field numValue rs0 laser) = Laser.y laser /\
      Laser.angle (editLaser field numValue rs0 laser)
        = normalizeAngle (- numValue)
  end /\
  Laser.id (editLaser field numValue rs0 laser) = Laser.id laser /\
  Laser.fired (editLaser field numValue rs0 laser) = Laser.fired laser /\
  Laser.direction (editLaser field numValue rs0 laser) = Laser.direction laser.
Proof. destruct field; cbn; auto. Qed.

(** The shift-click 300 pixels to the right of the body center creates
    a ray. *)
Lemma handleCanvasClick_outsideClick s :
  size s = mkSize 800 800 -> zoom s = 1 -> panOffset s = mkXY 0 0 ->
  wasPanning s = false -> isDragging s = false -> isPanning s = false ->
  exists l,
    Laser.id l = nextId s /\
    handleCanvasClick s outsideClick
    = setNextId (setLasers s (lasers s ++ [l])) (nextId s + 1).
Proof.
  intros Hsize Hzoom Hpan Hw Hd Hp.
  unfold handleCanvasClick. rewrite Hw, Hd, Hp. cbn [orb].
  unfold rs, BH_SIZE, BH_CENTER, playgroundWidth, playgroundHeight.
  rewrite Hsize, Hzoom, Hpan.
  cbn [sz_width sz_height xy_x xy_y outsideClick clientX clientY rect_left
         rect_top].
  replace ((620 - 0 - 800 * 0.8 / 2 - 0) / 1) with 300 by lra.
  replace ((400 - 0 - 800 / 2 - 0) / 1) with 0 by lra.
  rewrite hypot_axis by lra.
  replace (Math.min (Math.min 800 800) 600) with 600.
  2:{ unfold Math.min, Rmin.
      destruct (Rle_dec 800 800); destruct (Rle_dec 800 600); lra. }
  replace (Rgtb 300 (600 * 0.25 / 1)) with true
    by (symmetry; apply Rgtb_true; lra).
  eexists. split; [|reflexivity]. reflexivity.
Qed.



(** ** Gestures *)

(** C10.  A move step of a rotate-drag changes only the angle of the ray
    being rotated, a move step of a drag changes only the x and y of the
    ray being dragged; id, fired and direction of that ray, every other
    ray, the order of the rays and the id counter are left as they are. *)
Theorem mouse_move_frames_gesture :
  forall (s : State) (e : MouseEvent),
    (forall rotating lastX,
        rotatingLaserId s = Some rotating -> lastMouseX s = Some lastX ->
        Forall2
          (fun laser laser' =>
             Laser.id laser' = Laser.id laser /\
             Laser.fired laser' = Laser.fired laser /\
             Laser.direction laser' = Laser.direction laser /\
             Laser.x laser' = Laser.x laser /\
             Laser.y laser' = Laser.y laser /\
             (Laser.id laser <> rotating -> laser' = laser))
          (lasers s) (lasers (handleMouseMove s e))) /\
    (forall dragged,
        rotatingLaserId s = None \/ lastMouseX s = None ->
        isDragging s = true -> draggedLaserId s = Some dragged ->
        Forall2
          (fun laser laser' =>
             Laser.id laser' = Laser.id laser /\
             Laser.fired laser' = Laser.fired laser /\
             Laser.direction laser' = Laser.direction laser /\
             Laser.angle laser' = Laser.angle laser /\
             (Laser.id laser <> dragged -> laser' = laser))
          (lasers s) (lasers (handleMouseMove s e))) /\
    nextId (handleMouseMove s e) = nextId s.
Proof.
  intros s e. split; [|split].
  - intros rotating lastX Hrot Hlast. unfold handleMouseMove.
    rewrite Hrot, Hlast. cbn [lasers setLasers setLastMouseX].
    apply Forall2_map_self. intros laser _.
    destruct (Z.eqb_spec (Laser.id laser) rotating) as [Heq|Hne].
    + cbn. repeat split; auto. intros Hne. contradiction.
    + repeat split; auto.
  - intros dragged Hnorot Hdrag Hid. unfold handleMouseMove.
    assert (Hbranch :
      match rotatingLaserId s, lastMouseX s with
      | Some _, Some _ => False
      | _, _ => True
      end).
    { destruct Hnorot as [H|H]; rewrite H; [exact I|].
      destruct (rotatingLaserId s); exact I. }
    destruct (rotatingLaserId s), (lastMouseX s); try contradiction;
      rewrite Hdrag, Hid; cbn [lasers setLasers];
      apply Forall2_map_self; intros laser _;
      (destruct (Z.eqb_spec (Laser.id laser) dragged) as [Heq|Hne];
       [cbn; repeat split; auto; intros Hne; contradiction
       | repeat split; auto]).
  - unfold handleMouseMove.
    destruct (rotatingLaserId s), (lastMouseX s), (isDragging s),
      (draggedLaserId s), (isPanning s); reflexivity.
Qed.

(** What a rotation step stores: the old angle plus half the horizontal
    pointer travel, normalized. *)
Lemma rotate_step_normalizes s e rotating lastX :
  rotatingLaserId s = Some rotating -> lastMouseX s = Some lastX ->
  lasers (handleMouseMove s e)
  = map (fun laser =>
           if Z.eqb (Laser.id laser) rotating
           then Laser.with_angle laser
                  (normalizeAngle
                     (Laser.angle laser + (clientX e - lastX) * 0.5))
           else laser)
      (lasers s).
Proof.
  intros Hrot Hlast. unfold handleMouseMove. rewrite Hrot, Hlast. reflexivity.
Qed.

(** ** Reachable scenes *)

Section Runs.

Variable parseFloat : string -> option R.
Variable toFixed : R -> nat -> string.

Local Abbreviation step1 := (step parseFloat toFixed).
Local Abbreviation runFrom := (run parseFloat toFixed).
Local Abbreviation seen := (idsSeen parseFloat toFixed).

Lemma run_snoc s evs ev : runFrom s (evs ++ [ev]) = step1 (runFrom s evs) ev.
Proof. unfold run. now rewrite fold_left_app. Qed.

Lemma run_cons s evs ev : runFrom s (ev :: evs) = runFrom (step1 s ev) evs.
Proof. reflexivity. Qed.

Lemma change_none s s' :
  lasers s' = lasers s -> nextId s' = nextId s -> SceneChange s s'.
Proof.
  intros Hl Hn. apply (change_map s s' (fun l => l)); auto.
  now rewrite map_id.
Qed.

Lemma handleLaserMouseDown_scene s e id :
  lasers (handleLaserMouseDown toFixed s e id) = lasers s /\
  nextId (handleLaserMouseDown toFixed s e id) = nextId s.
Proof.
  unfold handleLaserMouseDown.
  destruct (Z.eqb (button e) 0); [split; reflexivity|].
  destruct (Z.eqb (button e) 2); [|split; reflexivity].
  destruct (shiftKey e); [|split; reflexivity].
  destruct (find _ (lasers s)); split; reflexivity.
Qed.

Lemma handleMouseUp_scene s e :
  lasers (handleMouseUp s e) = lasers s /\
  nextId (handleMouseUp s e) = nextId s.
Proof.
  unfold handleMouseUp.
  destruct (Z.eqb (button e) 0), (Z.eqb (button e) 2),
    (Z.eqb (button e) 1), (isPanning s); split; reflexivity.
Qed.

Lemma handleMouseDown_scene s e :
  lasers (handleMouseDown s e) = lasers s /\
  nextId (handleMouseDown s e) = nextId s.
Proof.
  unfold handleMouseDown.
  destruct (Z.eqb (button e) 1 || Z.eqb (button e) 0 && altKey e);
    split; reflexivity.
Qed.

Lemma handleLaserEdit_change s field value :
  SceneChange s (handleLaserEdit parseFloat s field value).
Proof.
  unfold handleLaserEdit.
  destruct (editingLaserId s) as [editing|]; [|now apply change_none].
  destruct (parseFloat value) as [numValue|]; [|now apply change_none].
  eapply change_map; [reflexivity | reflexivity | |]; intros l; cbn beta;
    destruct (Z.eqb (Laser.id l) editing); auto.
  - destruct field; reflexivity.
  - destruct field; cbn; auto.
    right. apply (normalizeAngle_range (- numValue)).
Qed.

Lemma handleMouseMove_change s e :
  SceneChange s (handleMouseMove s e).
Proof.
  unfold handleMouseMove.
  destruct (rotatingLaserId s) as [rotating|], (lastMouseX s) as [lastX|].
  1: { eapply change_map; [reflexivity | reflexivity | |]; intros l;
       cbn beta; destruct (Z.eqb (Laser.id l) rotating); auto.
       right. apply normalizeAngle_range. }
  all: destruct (isDragging s), (draggedLaserId s) as [dragged|];
    try (destruct (isPanning s); now apply change_none);
    (eapply change_map; [reflexivity | reflexivity | |]; intros l;
     cbn beta; destruct (Z.eqb (Laser.id l) dragged); auto).
Qed.

Lemma step_change s ev : SceneChange s (step1 s ev).
Proof.
  destruct ev; cbn [step]; try (now apply change_none).
  - (* click *)
    destruct (handleCanvasClick_cases s e) as [[Hl Hn]|[l (Hl & Hn & Hid & _ & Ha)]].
    + now apply change_none.
    + apply (change_create _ _ l); auto.
      rewrite Ha. destruct (shiftKey e); auto.
  - (* double click *)
    eapply change_filter; reflexivity.
  - destruct (handleLaserMouseDown_scene s e id). now apply change_none.
  - apply handleLaserEdit_change.
  - apply handleMouseMove_change.
  - destruct (handleMouseDown_scene s e). now apply change_none.
  - destruct (handleMouseUp_scene s e). now apply change_none.
  - (* clear all *)
    apply (change_filter _ _ (fun _ => false)); [|reflexivity].
    cbn. induction (lasers s); auto.
Qed.

(** *** Angles *)

Lemma step_anglesNormalized s ev :
  anglesNormalized s -> anglesNormalized (step1 s ev).
Proof.
  unfold anglesNormalized. intros Hs.
  destruct (step_change s ev) as [f Hl _ _ Ha | keep Hl _ | l Hl _ _ Ha];
    rewrite Hl.
  - apply Forall_map. eapply Forall_impl; [|exact Hs].
    intros l Hl'. cbn beta in *. destruct (Ha l) as [->|]; auto.
  - apply Forall_forall. intros l Hin. apply filter_In in Hin.
    rewrite Forall_forall in Hs. apply Hs. tauto.
  - apply Forall_app. split; [exact Hs|].
    constructor; [|constructor]. destruct Ha as [-> | ->]; lra.
Qed.

Lemma run_anglesNormalized evs :
  forall s, anglesNormalized s -> anglesNormalized (runFrom s evs).
Proof.
  induction evs as [|ev evs IH]; intros s Hs; [exact Hs|].
  rewrite run_cons. apply IH, step_anglesNormalized, Hs.
Qed.

(** *** Identifiers *)

Lemma step_nextId_mono s ev : (nextId s <= nextId (step1 s ev))%Z.
Proof.
  destruct (step_change s ev) as [f _ Hn _ _ | keep _ Hn | l _ Hn _ _]; lia.
Qed.

Lemma run_nextId_mono evs : forall s, (nextId s <= nextId (runFrom s evs))%Z.
Proof.
  induction evs as [|ev evs IH]; intros s; [cbn; lia|].
  rewrite run_cons. pose proof (step_nextId_mono s ev).
  pose proof (IH (step1 s ev)). lia.
Qed.

Lemma NoDup_map_filter (keep : Laser.t -> bool) ls :
  NoDup (map Laser.id ls) -> NoDup (map Laser.id (filter keep ls)).
Proof.
  induction ls as [|l ls IH]; intros Hnd; [exact Hnd|].
  cbn [map] in Hnd. inversion Hnd as [|? ? Hnotin Hnd']; subst.
  cbn [filter]. destruct (keep l); [|now apply IH].
  cbn [map]. constructor; [|now apply IH].
  intros Hin. apply Hnotin. apply in_map_iff in Hin.
  destruct Hin as (l' & Hid & Hl'). apply filter_In in Hl'.
  apply in_map_iff. exists l'. tauto.
Qed.

Lemma step_idsFresh s ev : idsFresh s -> idsFresh (step1 s ev).
Proof.
  intros [Hnd Hlt].
  destruct (step_change s ev) as [f Hl Hn Hid _ | keep Hl Hn | l Hl Hn Hid _];
    unfold idsFresh; rewrite Hl, Hn.
  - split.
    + rewrite map_map. erewrite map_ext; [exact Hnd|]. intros a. apply Hid.
    + apply Forall_map. eapply Forall_impl; [|exact Hlt].
      intros a Ha. cbn beta in *. rewrite Hid. exact Ha.
  - split; [now apply NoDup_map_filter|].
    apply Forall_forall. intros a Hin. apply filter_In in Hin.
    rewrite Forall_forall in Hlt. apply Hlt. tauto.
  - split.
    + rewrite map_app. cbn [map]. apply NoDup_app; [exact Hnd | | ].
      * constructor; [intros []|constructor].
      * intros i Hi [Heq|[]]. subst i. apply in_map_iff in Hi.
        destruct Hi as (a & Ha & Hin). rewrite Forall_forall in Hlt.
        specialize (Hlt a Hin). lia.
    + apply Forall_app. split.
      * eapply Forall_impl; [|exact Hlt]. intros a Ha. cbn beta in *. lia.
      * constructor; [lia|constructor].
Qed.

Lemma run_idsFresh evs : forall s, idsFresh s -> idsFresh (runFrom s evs).
Proof.
  induction evs as [|ev evs IH]; intros s Hs; [exact Hs|].
  rewrite run_cons. apply IH, step_idsFresh, Hs.
Qed.

(** Every id that was ever in the scene lies below the counter. *)
Lemma idsSeen_below_counter evs :
  forall s, idsFresh s ->
            Forall (fun j => (j < nextId (runFrom s evs))%Z) (seen s evs).
Proof.
  induction evs as [|ev evs IH]; intros s Hs.
  - cbn. rewrite app_nil_r. apply Forall_map. apply Hs.
  - cbn [idsSeen]. rewrite run_cons. apply Forall_app. split.
    + apply Forall_map. destruct Hs as [_ Hlt].
      eapply Forall_impl; [|exact Hlt]. intros a Ha. cbn beta in *.
      pose proof (step_nextId_mono s ev).
      pose proof (run_nextId_mono evs (step1 s ev)). lia.
    + apply IH, step_idsFresh, Hs.
Qed.

(** Only a create makes the ray list one longer, and the ray it adds
    carries the counter value. *)
Lemma step_append_is_create s ev l :
  lasers (step1 s ev) = lasers s ++ [l] ->
  Laser.id l = nextId s /\ nextId (step1 s ev) = (nextId s + 1)%Z.
Proof.
  intros Happ.
  destruct (step_change s ev) as [f Hl _ _ _ | keep Hl _ | l' Hl Hn Hid _].
  - exfalso. apply (f_equal (@length _)) in Happ.
    rewrite Hl, length_map, length_app in Happ. cbn in Happ. lia.
  - exfalso. apply (f_equal (@length _)) in Happ.
    rewrite Hl, length_app in Happ. cbn in Happ.
    pose proof (filter_length_le keep (lasers s)). lia.
  - rewrite Hl in Happ. apply app_inj_tail in Happ.
    destruct Happ as [_ ->]. auto.
Qed.

End Runs.

Lemma initial_anglesNormalized : anglesNormalized initialState.
Proof. constructor. Qed.

Lemma initial_idsFresh : idsFresh initialState.
Proof. split; constructor. Qed.

(** C8.  In every scene that a sequence of events produces from the
    initial one, the angle of every ray lies in [0, 360): a create sets 0
    or 90, a rotation step and an angle edit store a normalized value,
    and nothing else writes an angle. *)
Theorem reachable_angles_normalized :
  forall (parseFloat : string -> option R) (toFixed : R -> nat -> string)
         (evs : list Event),
    Forall (fun l => 0 <= Laser.angle l < 360)
      (lasers (run parseFloat toFixed initialState evs)).
Proof.
  intros parseFloat toFixed evs.
  apply (run_anglesNormalized parseFloat toFixed evs initialState).
  exact initial_anglesNormalized.
Qed.

(** C9.  In every scene that a sequence of events produces from the
    initial one no two rays share an id; an event that adds a ray gives
    it an id above every id that any ray carried at any earlier point of
    the run, deleted rays included; a delete and a clear-all leave the id
    counter where it is, and no event ever lowers it. *)
Theorem ray_ids_unique_and_never_reused :
  forall (parseFloat : string -> option R) (toFixed : R -> nat -> string)
         (evs : list Event),
    let s := run parseFloat toFixed initialState evs in
    NoDup (map Laser.id (lasers s)) /\
    (forall ev newLaser,
        lasers (step parseFloat toFixed s ev) = lasers s ++ [newLaser] ->
        forall j, In j (idsSeen parseFloat toFixed initialState evs) ->
                  (j < Laser.id newLaser)%Z) /\
    (forall id, nextId (handleLaserDoubleClick s id) = nextId s) /\
    nextId (handleCleanAll s) = nextId s /\
    (forall ev, (nextId s <= nextId (step parseFloat toFixed s ev))%Z).
Proof.
  intros parseFloat toFixed evs s.
  pose proof (run_idsFresh parseFloat toFixed evs initialState
                initial_idsFresh) as [Hnd Hlt].
  split; [exact Hnd|]. split.
  - intros ev newLaser Happ j Hj.
    destruct (step_append_is_create parseFloat toFixed s ev newLaser Happ)
      as [Hid _].
    pose proof (idsSeen_below_counter parseFloat toFixed evs initialState
                  initial_idsFresh) as Hseen.
    rewrite Forall_forall in Hseen. specialize (Hseen j Hj).
    fold s in Hseen. lia.
  - split; [reflexivity|]. split; [reflexivity|].
    intros ev. apply step_nextId_mono.
Qed.

Lemma mouse_move_frames_gesture_witness :
  Forall2
    (fun laser laser' =>
       Laser.id laser' = Laser.id laser /\
       Laser.fired laser' = Laser.fired laser /\
       Laser.direction laser' = Laser.direction laser /\
       Laser.x laser' = Laser.x laser /\
       Laser.y laser' = Laser.y laser /\
       (Laser.id laser <> 0%Z -> laser' = laser))
    (lasers rotatingRay0) (lasers (handleMouseMove rotatingRay0 pointerAt640)).
Proof.
  apply (proj1 (mouse_move_frames_gesture rotatingRay0 pointerAt640) 0%Z 620);
    reflexivity.
Defined.

(** ** Gravitation switched off *)

(** The polar coordinates the solver starts from give back the start
    point. *)
Lemma hypot_scaled x y :
  x <> 0 -> Math.hypot x y = Rabs x * sqrt (1 + (y / x)²).
Proof.
  intros Hx. unfold Math.hypot.
  replace (x * x + y * y) with (x² * (1 + (y / x)²))
    by (unfold Rsqr; field; exact Hx).
  rewrite sqrt_mult_alt by apply Rle_0_sqr.
  now rewrite sqrt_Rsqr_abs.
Qed.

Lemma sqrt_1_sqr_pos u : 0 < sqrt (1 + u²).
Proof. apply sqrt_lt_R0. pose proof (Rle_0_sqr u). lra. Qed.

Lemma hypot_atan2 x y :
  Math.hypot x y * Math.cos (Math.atan2 y x) = x /\
  Math.hypot x y * Math.sin (Math.atan2 y x) = y.
Proof.
  unfold Math.atan2, Math.cos, Math.sin, Math.PI.
  destruct (Rlt_dec 0 x) as [Hpos|Hnpos].
  - replace (Rltb 0 x) with true by (symmetry; apply Rltb_true; exact Hpos).
    rewrite hypot_scaled by lra. rewrite cos_atan, sin_atan.
    rewrite Rabs_pos_eq by lra.
    pose proof (sqrt_1_sqr_pos (y / x)) as Hs.
    split; field; repeat split; lra.
  - replace (Rltb 0 x) with false by (symmetry; apply Rltb_false; lra).
    destruct (Rlt_dec x 0) as [Hneg|Hnneg].
    + replace (Rltb x 0) with true by (symmetry; apply Rltb_true; exact Hneg).
      rewrite hypot_scaled by lra.
      rewrite Rabs_left by exact Hneg.
      pose proof (sqrt_1_sqr_pos (y / x)) as Hs.
      destruct (Rleb 0 y).
      * rewrite neg_cos, neg_sin, cos_atan, sin_atan.
        split; field; repeat split; lra.
      * unfold Rminus. rewrite cos_plus, sin_plus, cos_neg, sin_neg.
        rewrite cos_PI, sin_PI, cos_atan, sin_atan.
        split; field; repeat split; lra.
    + replace (Rltb x 0) with false by (symmetry; apply Rltb_false; lra).
      assert (x = 0) by lra. subst x.
      unfold Math.hypot. replace (0 * 0 + y * y) with (y²) by (unfold Rsqr; ring).
      rewrite sqrt_Rsqr_abs.
      destruct (Rlt_dec 0 y) as [Hy|Hy].
      * replace (Rltb 0 y) with true by (symmetry; apply Rltb_true; exact Hy).
        rewrite cos_PI2, sin_PI2, Rabs_pos_eq by lra. split; ring.
      * replace (Rltb 0 y) with false by (symmetry; apply Rltb_false; lra).
        destruct (Rlt_dec y 0) as [Hy'|Hy'].
        -- replace (Rltb y 0) with true by (symmetry; apply Rltb_true; exact Hy').
           rewrite cos_neg, sin_neg, cos_PI2, sin_PI2, Rabs_left by exact Hy'.
           split; ring.
        -- replace (Rltb y 0) with false by (symmetry; apply Rltb_false; lra).
           assert (y = 0) by lra. subst y. rewrite Rabs_R0. split; ring.
Qed.

Lemma closeTo_exact a b : a = b -> closeTo 0 a b.
Proof.
  intros ->. unfold closeTo. replace (b - b) with 0 by ring.
  rewrite Rabs_R0. lra.
Qed.

Section StraightRays.

Variables (startX startY angleDeg width height bhSize zoom : R).
Variable gravityEnabled : bool.

Local Abbreviation integrate :=
  (Solver.integrate startX startY angleDeg width height bhSize zoom
     gravityEnabled).
Local Abbreviation stateAt :=
  (Solver.stateAt startX startY angleDeg width height bhSize gravityEnabled).
Local Abbreviation captured := (Solver.captured bhSize gravityEnabled).
Local Abbreviation pushed := (Solver.pushed width height zoom).
Local Abbreviation calculateLightPath :=
  (Solver.calculateLightPath startX startY angleDeg width height bhSize zoom
     gravityEnabled).

(** Every point of the loop's result was in the array before or is the
    point of an iteration at which the capture test did not fire. *)
Lemma integrate_In n :
  forall k pts p,
    In p (integrate n (stateAt k) pts) ->
    In p pts \/
    exists j, p = pushed (stateAt j) /\ captured (stateAt j) = false.
Proof.
  induction n as [|n IH]; intros k pts p Hin; [now left|].
  rewrite integrate_S in Hin.
  destruct (captured (stateAt k)) eqn:Hc; [now left|].
  destruct (Solver.escaped width height zoom (stateAt k)); [now left|].
  apply (IH (S k)) in Hin. destruct Hin as [Hin|Hin]; [|now right].
  apply in_app_or in Hin. destruct Hin as [Hin|[<-|[]]]; [now left|].
  right. exists k. split; [reflexivity | exact Hc].
Qed.

Lemma path_In p :
  In p calculateLightPath ->
  exists j, p = pushed (stateAt j) /\ captured (stateAt j) = false.
Proof.
  intros Hin. rewrite path_unfold in Hin.
  apply integrate_In in Hin.
  destruct Hin as [[]|Hin]. exact Hin.
Qed.

(** The first point recorded is the start point. *)
Lemma pushed_start :
  Point.x (pushed (stateAt 0)) = startX /\
  Point.y (pushed (stateAt 0)) = startY.
Proof.
  cbn [Solver.stateAt Solver.pushed Point.x Point.y Solver.xPix Solver.yPix].
  unfold Solver.r0, Solver.phi0.
  destruct (hypot_atan2 (Solver.relX0 startX width)
              (Solver.relY0 startY height)) as [Hx Hy].
  rewrite Hx, Hy. unfold Solver.relX0, Solver.relY0. split; ring.
Qed.


(** The direction of emission in the polar frame of the start point. *)
Lemma direction_in_polar_frame :
  Solver.vx angleDeg
  = Solver.n_r startX startY angleDeg width height
      * Math.cos (Solver.phi0 startX startY width height)
    - Solver.n_phi startX startY angleDeg width height
      * Math.sin (Solver.phi0 startX startY width height) /\
  Solver.vy angleDeg
  = Solver.n_r startX startY angleDeg width height
      * Math.sin (Solver.phi0 startX startY width height)
    + Solver.n_phi startX startY angleDeg width height
      * Math.cos (Solver.phi0 startX startY width height).
Proof.
  unfold Solver.n_r, Solver.n_phi, Math.cos, Math.sin.
  set (phi := Solver.phi0 startX startY width height).
  pose proof (sin2_cos2 phi) as H. unfold Rsqr in H.
  set (c := cos phi) in *. set (s := sin phi) in *.
  set (u := Solver.vx angleDeg). set (v := Solver.vy angleDeg).
  split.
  - transitivity (u * (s * s + c * c)); [rewrite H; ring | ring].
  - transitivity (v * (s * s + c * c)); [rewrite H; ring | ring].
Qed.

(** A ray without angular momentum is traced along its Euclidean ray:
    the point of iteration [j] lies [j * h] along the direction. *)
Lemma radial_point_on_ray j :
  Solver.L startX startY angleDeg width height = 0 ->
  0 < Solver.r0 startX startY width height ->
  Point.x (pushed (stateAt j))
  = startX + (INR j * Solver.h bhSize) * Solver.vx angleDeg /\
  Point.y (pushed (stateAt j))
  = startY + (INR j * Solver.h bhSize) * Solver.vy angleDeg.
Proof.
  intros HL Hr0.
  assert (Hn : Solver.n_phi startX startY angleDeg width height = 0).
  { unfold Solver.L in HL. nra. }
  destruct direction_in_polar_frame as [Hvx Hvy]. rewrite Hn in Hvx, Hvy.
  destruct pushed_start as [Hx Hy].
  cbn [Solver.stateAt Solver.pushed Point.x Point.y Solver.xPix Solver.yPix]
    in Hx, Hy.
  rewrite stateAt_radial by exact HL.
  cbn [Solver.pushed Point.x Point.y Solver.xPix Solver.yPix].
  unfold Solver.p_r0. rewrite Hvx, Hvy. split; nra.
Qed.

End StraightRays.


(** ** The shape of a path *)

Section PathShape.

Variables (startX startY angleDeg width height bhSize zoom : R).
Variable gravityEnabled : bool.

Local Abbreviation integrate :=
  (Solver.integrate startX startY angleDeg width height bhSize zoom
     gravityEnabled).
Local Abbreviation stateAt :=
  (Solver.stateAt startX startY angleDeg width height bhSize gravityEnabled).
Local Abbreviation captured := (Solver.captured bhSize gravityEnabled).
Local Abbreviation escaped := (Solver.escaped width height zoom).
Local Abbreviation pushed := (Solver.pushed width height zoom).
Local Abbreviation pointsOf :=
  (Solver.pointsOf startX startY angleDeg width height bhSize zoom
     gravityEnabled).
Local Abbreviation calculateLightPath :=
  (Solver.calculateLightPath startX startY angleDeg width height bhSize zoom
     gravityEnabled).

(** The loop run with [n] iterations left from iteration [k]: it appends
    the points of [m] further iterations, none of which breaks, and
    stops early only at an iteration that breaks. *)
Lemma integrate_shape n :
  forall k pts,
  exists m,
    (m <= n)%nat /\
    integrate n (stateAt k) pts
    = pts ++ map (fun j => pushed (stateAt j)) (seq k m) /\
    (forall j, (k <= j < k + m)%nat ->
               captured (stateAt j) = false /\ escaped (stateAt j) = false) /\
    ((m < n)%nat ->
     captured (stateAt (k + m)) = true \/ escaped (stateAt (k + m)) = true).
Proof.
  induction n as [|n IH]; intros k pts.
  - exists 0%nat. cbn. rewrite app_nil_r. repeat split; try lia.
  - rewrite integrate_S.
    destruct (captured (stateAt k)) eqn:Hc.
    { exists 0%nat. cbn. rewrite app_nil_r, Nat.add_0_r.
      repeat split; try lia. intros _. now left. }
    destruct (escaped (stateAt k)) eqn:He.
    { exists 0%nat. cbn. rewrite app_nil_r, Nat.add_0_r.
      repeat split; try lia. intros _. now right. }
    rewrite <- stateAt_S.
    destruct (IH (S k) (pts ++ [pushed (stateAt k)])) as (m & Hm & Heq & Hrun & Hstop).
    exists (S m). split; [lia|]. split; [|split].
    + rewrite Heq. cbn [seq map]. now rewrite <- app_assoc.
    + intros j Hj. destruct (Nat.eq_dec j k) as [->|Hne]; [now split|].
      apply Hrun. lia.
    + intros Hlt. replace (k + S m)%nat with (S k + m)%nat by lia.
      apply Hstop. lia.
Qed.

Lemma path_shape :
  exists m,
    (m <= maxSteps)%nat /\
    calculateLightPath = pointsOf m /\
    (forall j, (j < m)%nat ->
               captured (stateAt j) = false /\ escaped (stateAt j) = false) /\
    ((m < maxSteps)%nat ->
     captured (stateAt m) = true \/ escaped (stateAt m) = true).
Proof.
  destruct (integrate_shape maxSteps 0 []) as (m & Hm & Heq & Hrun & Hstop).
  exists m. split; [exact Hm|]. split; [|split].
  - rewrite path_unfold. exact Heq.
  - intros j Hj. apply Hrun. lia.
  - exact Hstop.
Qed.

End PathShape.

(** ** Finite runs *)

Lemma Reqb_true a b : Reqb a b = true <-> a = b.
Proof. unfold Reqb; destruct (Req_dec_T a b); split; (congruence || tauto). Qed.

Lemma Reqb_false a b : Reqb a b = false <-> a <> b.
Proof. unfold Reqb; destruct (Req_dec_T a b); split; (congruence || tauto). Qed.

Lemma dividesByZero_false r phi p_r :
  dividesByZero (r, phi, p_r) = false <-> r <> 0.
Proof. unfold dividesByZero. apply Reqb_false. Qed.

(** [rk4] looks at the derivative function at the four stages only. *)
Lemma rk4_stages_agree y h d d' :
  Forall (fun s => d' s = d s) (rk4_stages y h d) ->
  rk4 y h d' = rk4 y h d /\ rk4_stages y h d' = rk4_stages y h d.
Proof.
  destruct y as [[y0 y1] y2]. unfold rk4_stages, rk4.
  destruct (d (y0, y1, y2)) as [[a0 a1] a2] eqn:E1.
  destruct (d (y0 + 0.5 * h * a0, y1 + 0.5 * h * a1, y2 + 0.5 * h * a2))
    as [[b0 b1] b2] eqn:E2.
  destruct (d (y0 + 0.5 * h * b0, y1 + 0.5 * h * b1, y2 + 0.5 * h * b2))
    as [[c0 c1] c2] eqn:E3.
  intros H.
  apply Forall_cons_iff in H. destruct H as [H1 H].
  apply Forall_cons_iff in H. destruct H as [H2 H].
  apply Forall_cons_iff in H. destruct H as [H3 H].
  apply Forall_cons_iff in H. destruct H as [H4 _].
  rewrite H1, E1, H2, E2, H3, E3, H4. split; reflexivity.
Qed.

Section FiniteRunFacts.

Variables (startX startY angleDeg width height bhSize : R).
Variable gravityEnabled : bool.

Local Abbreviation stateAt :=
  (Solver.stateAt startX startY angleDeg width height bhSize gravityEnabled).
Local Abbreviation derivs :=
  (Solver.derivs startX startY angleDeg width height bhSize gravityEnabled).
Local Abbreviation finiteStep' :=
  (finiteStep startX startY angleDeg width height bhSize gravityEnabled).
Local Abbreviation finiteRun' :=
  (finiteRun startX startY angleDeg width height bhSize gravityEnabled).

Lemma finiteRun_spec k :
  finiteRun' k = true <->
  forall j, (j < k)%nat -> finiteStep' (stateAt j) = true.
Proof.
  unfold finiteRun. rewrite forallb_forall. split.
  - intros H j Hj. apply H, in_seq. lia.
  - intros H j Hj. apply in_seq in Hj. apply H. lia.
Qed.

Lemma finiteRun_S k :
  finiteRun' (S k) = true <->
  finiteRun' k = true /\ finiteStep' (stateAt k) = true.
Proof.
  rewrite !finiteRun_spec. split.
  - intros H. split; [intros j Hj; apply H; lia | apply H; lia].
  - intros [H1 H2] j Hj. destruct (Nat.eq_dec j k) as [->|Hne];
      [exact H2 | apply H1; lia].
Qed.

Lemma finiteRun_le k k' :
  (k' <= k)%nat -> finiteRun' k = true -> finiteRun' k' = true.
Proof.
  rewrite !finiteRun_spec. intros Hle H j Hj. apply H. lia.
Qed.

(** On a finite run the states do not depend on the value that is
    chosen for a quotient with divisor 0: any function that agrees with
    [derivs] wherever r <> 0 gives the same states. *)
Lemma finite_run_ignores_division_by_zero (d : vec3 -> vec3) k :
  (forall y, dividesByZero y = false -> d y = derivs y) ->
  finiteRun' k = true ->
  stateWith startX startY angleDeg width height bhSize d k = stateAt k.
Proof.
  intros Hd. induction k as [|k IH]; intros Hfin; [reflexivity|].
  apply finiteRun_S in Hfin. destruct Hfin as [Hk Hstep].
  cbn [stateWith Solver.stateAt]. rewrite (IH Hk).
  apply rk4_stages_agree.
  unfold finiteStep in Hstep. rewrite forallb_forall in Hstep.
  apply Forall_forall. intros s Hs. apply Hd.
  apply Hstep in Hs. now apply negb_true_iff in Hs.
Qed.

End FiniteRunFacts.

(** ** Radial rays and finite runs *)

Lemma n_r_bounds startX startY angleDeg width height :
  -1 <= Solver.n_r startX startY angleDeg width height <= 1.
Proof.
  unfold Solver.n_r, Solver.vx, Solver.vy, Math.cos, Math.sin.
  rewrite <- cos_minus. apply COS_bound.
Qed.

Section RadialFinite.

Variables (startX startY angleDeg width height bhSize zoom : R).
Variable gravityEnabled : bool.

Local Abbreviation stateAt :=
  (Solver.stateAt startX startY angleDeg width height bhSize gravityEnabled).
Local Abbreviation captured := (Solver.captured bhSize gravityEnabled).
Local Abbreviation escaped := (Solver.escaped width height zoom).
Local Abbreviation pushed := (Solver.pushed width height zoom).
Local Abbreviation calculateLightPath :=
  (Solver.calculateLightPath startX startY angleDeg width height bhSize zoom
     gravityEnabled).
Local Abbreviation finiteStep' :=
  (finiteStep startX startY angleDeg width height bhSize gravityEnabled).
Local Abbreviation finiteRun' :=
  (finiteRun startX startY angleDeg width height bhSize gravityEnabled).
Local Abbreviation L := (Solver.L startX startY angleDeg width height).
Local Abbreviation r0 := (Solver.r0 startX startY width height).
Local Abbreviation p_r0 := (Solver.p_r0 startX startY angleDeg width height).

(** The stages of a step of a ray without angular momentum. *)
Lemma finiteStep_radial r phi p_r :
  L = 0 ->
  r <> 0 ->
  r + 0.5 * Solver.h bhSize * p_r <> 0 ->
  r + Solver.h bhSize * p_r <> 0 ->
  finiteStep' (r, phi, p_r) = true.
Proof.
  intros HL H1 H2 H3. unfold finiteStep, rk4_stages.
  rewrite !(derivs_radial startX startY angleDeg width height bhSize
              gravityEnabled) by exact HL.
  cbn [forallb]. rewrite !andb_true_iff, !negb_true_iff.
  rewrite !dividesByZero_false.
  replace (p_r + 0.5 * Solver.h bhSize * 0) with p_r by ring. tauto.
Qed.

(** The point of iteration [k], when the returned sequence has one. *)
Lemma path_nth k p :
  nth_error calculateLightPath k = Some p ->
  p = pushed (stateAt k) /\
  forall j, (j <= k)%nat ->
    captured (stateAt j) = false /\ escaped (stateAt j) = false.
Proof.
  destruct (path_shape startX startY angleDeg width height bhSize zoom
              gravityEnabled) as (m & _ & Heq & Hrun & _).
  rewrite Heq. unfold Solver.pointsOf. intros Hnth.
  assert (Hk : (k < m)%nat).
  { pose proof (proj1 (nth_error_Some _ k) ltac:(rewrite Hnth; discriminate))
      as Hlt.
    now rewrite length_map, length_seq in Hlt. }
  split.
  - rewrite nth_error_map, nth_error_seq in Hnth.
    destruct (Nat.ltb_spec k m) as [_|Hge]; [|lia].
    cbn in Hnth. now injection Hnth as <-.
  - intros j Hj. apply Hrun. lia.
Qed.


(** Every iteration up to [k] passes the two tests: the returned
    sequence has a point of iteration [k]. *)
Lemma path_reaches k :
  (k < maxSteps)%nat ->
  (forall j, (j <= k)%nat ->
     captured (stateAt j) = false /\ escaped (stateAt j) = false) ->
  nth_error calculateLightPath k = Some (pushed (stateAt k)).
Proof.
  intros Hk Hpass.
  destruct (path_shape startX startY angleDeg width height bhSize zoom
              gravityEnabled) as (m & _ & Heq & _ & Hstop).
  assert (Hm : (k < m)%nat).
  { destruct (Nat.lt_ge_cases k m) as [Hlt|Hge]; [exact Hlt|].
    destruct (Hpass m Hge) as [Hc He].
    destruct (Hstop ltac:(lia)) as [H|H]; congruence. }
  rewrite Heq. unfold Solver.pointsOf.
  rewrite nth_error_map, nth_error_seq.
  destruct (Nat.ltb_spec k m) as [_|Hge]; [reflexivity | lia].
Qed.

(** The steps that the returned sequence rests on start in states that
    were not captured. *)
Lemma path_steps_not_captured j :
  (j < length calculateLightPath)%nat -> captured (stateAt j) = false.
Proof.
  destruct (path_shape startX startY angleDeg width height bhSize zoom
              gravityEnabled) as (m & _ & Heq & Hrun & _).
  rewrite Heq, pointsOf_length. intros Hj. apply Hrun, Hj.
Qed.

(** A ray without angular momentum that points away from the center
    never comes to r = 0. *)
Lemma finiteRun_radial_outward k :
  0 <= bhSize -> L = 0 -> 0 < r0 -> 0 <= p_r0 -> finiteRun' k = true.
Proof.
  intros Hb HL Hr0 Hp. apply finiteRun_spec. intros j _.
  rewrite stateAt_radial by exact HL.
  pose proof (pos_INR j) as Hj.
  assert (Hh : 0 <= Solver.h bhSize) by (unfold Solver.h, Solver.rs; lra).
  assert (Hjh : 0 <= INR j * Solver.h bhSize * p_r0).
  { apply Rmult_le_pos; [apply Rmult_le_pos|]; assumption. }
  assert (Hhp : 0 <= Solver.h bhSize * p_r0) by (apply Rmult_le_pos; assumption).
  apply finiteStep_radial; [exact HL|lra|lra|lra].
Qed.

(** With gravitation on, a ray without angular momentum is captured
    before a stage of a step can come to r = 0: a step moves r by at
    most a hundredth of the body radius. *)
Lemma finiteRun_radial_gravity k :
  0 <= bhSize -> L = 0 -> gravityEnabled = true ->
  (forall j, (j < k)%nat -> captured (stateAt j) = false) ->
  finiteRun' k = true.
Proof.
  intros Hb HL Hg Hcap. apply finiteRun_spec. intros j Hj.
  specialize (Hcap j Hj). rewrite stateAt_radial in * by exact HL.
  unfold Solver.captured in Hcap. apply Rleb_false in Hcap.
  unfold Solver.effectiveRs, Solver.massFactor in Hcap. rewrite Hg in Hcap.
  pose proof (n_r_bounds startX startY angleDeg width height) as Hn.
  fold p_r0 in Hn. unfold Solver.p_r0 in *.
  set (p := Solver.n_r startX startY angleDeg width height) in *.
  set (r := r0 + INR j * Solver.h bhSize * p) in *.
  assert (Hh : Solver.h bhSize = bhSize * 0.25 * 0.01) by reflexivity.
  unfold Solver.rs in Hcap.
  set (hh := Solver.h bhSize) in *.
  assert (Hhp : - hh <= hh * p <= hh) by nra.
  apply finiteStep_radial; [exact HL| | |]; fold hh; lra.
Qed.

End RadialFinite.

(** A run that is not finite:
    [calculateLightPath(400.75, 400, 180, 800, 800, 600, 1, false)]
    starts 0.75 pixels to the right of the center and points at it; the
    step is 1.5, so the second stage of the first step is at r = 0. *)
Lemma ray_through_the_center_divides_by_zero :
  nth_error
    (rk4_stages (Solver.stateAt 400.75 400 180 800 800 600 false 0)
       (Solver.h 600) (Solver.derivs 400.75 400 180 800 800 600 false)) 1
  = Some (0, 0, -1) /\
  finiteRun 400.75 400 180 800 800 600 false 1 = false.
Proof.
  destruct (start_on_axis 0.75 800 800 ltac:(lra)) as [Hr0 Hphi0].
  destruct (frame_on_axis 0.75 180 800 800 ltac:(lra)) as [Hp HL].
  destruct direction_180 as [Hvx Hvy]. rewrite Hvx in Hp. rewrite Hvy in HL.
  replace (800 / 2 + 0.75) with 400.75 in Hr0, Hphi0, Hp, HL by lra.
  replace (800 / 2) with 400 in Hr0, Hphi0, Hp, HL by lra.
  replace (0 * 0.75) with 0 in HL by lra.
  assert (Hst : rk4_stages (Solver.stateAt 400.75 400 180 800 800 600 false 0)
                  (Solver.h 600)
                  (Solver.derivs 400.75 400 180 800 800 600 false)
                = [(0.75, 0, -1); (0, 0, -1); (0, 0, -1); (-0.75, 0, -1)]).
  { cbn [Solver.stateAt]. rewrite Hr0, Hphi0, Hp. unfold rk4_stages.
    rewrite !(derivs_radial 400.75 400 180 800 800 600 false) by exact HL.
    unfold Solver.h, Solver.rs.
    repeat (f_equal; try lra). }
  split; [rewrite Hst; reflexivity|].
  unfold finiteRun. cbn [seq forallb]. unfold finiteStep. rewrite Hst.
  cbn [forallb dividesByZero].
  replace (Reqb 0 0) with true by (symmetry; apply Reqb_true; reflexivity).
  destruct (Reqb 0.75 0); reflexivity.
Qed.

(** ** The straight ray solves the equations of free motion *)


Section RayFacts.

Variables (startX startY angleDeg width height : R).

Local Abbreviation X := (Ray.relX startX angleDeg width).
Local Abbreviation Y := (Ray.relY startY angleDeg height).
Local Abbreviation rr := (Ray.r startX startY angleDeg width height).
Local Abbreviation pp := (Ray.p_r startX startY angleDeg width height).
Local Abbreviation vx := (Solver.vx angleDeg).
Local Abbreviation vy := (Solver.vy angleDeg).
Local Abbreviation L := (Solver.L startX startY angleDeg width height).













End RayFacts.






(** ** The step budget at work

    A ray launched tangentially on the circle of radius 1.5 rs (225
    pixels for a body of diameter 600) stays on that circle: neither test
    ever fires and the loop stops at the budget. *)
Lemma circular_orbit_state k :
  Solver.stateAt 625 400 90 800 800 600 true k = (225, INR k / 150, 0).
Proof.
  destruct (start_on_axis 225 800 800 ltac:(lra)) as [Hr0 Hphi0].
  destruct (frame_on_axis 225 90 800 800 ltac:(lra)) as [Hp HL].
  destruct direction_90 as [Hvx Hvy]. rewrite Hvx in Hp. rewrite Hvy in HL.
  replace (800 / 2 + 225) with 625 in * by lra.
  replace (800 / 2) with 400 in * by lra.
  induction k as [|k IH].
  - cbn [Solver.stateAt]. rewrite Hr0, Hphi0, Hp. simpl INR.
    f_equal. f_equal. lra.
  - cbn [Solver.stateAt]. rewrite IH. rewrite S_INR.
    unfold rk4, Solver.derivs, Solver.h, Solver.effectiveRs, Solver.rs,
      Solver.massFactor.
    rewrite HL. f_equal; [f_equal|]; lra.
Qed.

Lemma circular_orbit_uses_budget :
  length (Solver.calculateLightPath 625 400 90 800 800 600 1 true) = 4000%nat.
Proof.
  apply calculateLightPath_step_budget.
  intros j _. rewrite circular_orbit_state. split.
  - unfold Solver.captured, Solver.effectiveRs, Solver.rs, Solver.massFactor.
    apply Rleb_false. lra.
  - apply not_escaped_near_center. rewrite Rabs_pos_eq; lra.
Defined.

(** ** The displayed angle

    The iteration bounds given to the two [while] loops are enough: the
    loops run until their tests fail and leave the angle in (-180, 180]. *)
Lemma loopBound_enough a : Rabs a < 360 * INR (loopBound a).
Proof.
  unfold loopBound.
  pose proof (archimed (Rabs a / 360)) as [Hup _].
  pose proof (Rabs_pos a) as Hpos.
  assert (Hq : 0 <= Rabs a / 360) by lra.
  assert (Hz : (0 <= up (Rabs a / 360))%Z).
  { apply le_IZR. lra. }
  rewrite INR_IZR_INZ, Z2Nat.id by exact Hz. lra.
Qed.

Lemma while_gt_180_spec fuel :
  forall d, d <= 180 + 360 * INR fuel ->
            while_gt_180 fuel d <= 180 /\
            (d <= 180 -> while_gt_180 fuel d = d) /\
            (-180 < d -> -180 < while_gt_180 fuel d).
Proof.
  induction fuel as [|fuel IH]; intros d Hd.
  - simpl in *. repeat split; auto; lra.
  - rewrite S_INR in Hd. cbn [while_gt_180].
    destruct (Rlt_dec 180 d) as [Hgt|Hle].
    + replace (Rgtb d 180) with true by (symmetry; apply Rgtb_true; lra).
      destruct (IH (d - 360) ltac:(lra)) as (H1 & H2 & H3).
      repeat split; [exact H1 | lra | intros _; apply H3; lra].
    + replace (Rgtb d 180) with false by (symmetry; apply Rgtb_false; lra).
      repeat split; auto; lra.
Qed.

Lemma while_le_m180_spec fuel :
  forall d, -180 - 360 * INR fuel < d ->
            -180 < while_le_m180 fuel d /\
            (d <= 180 -> while_le_m180 fuel d <= 180).
Proof.
  induction fuel as [|fuel IH]; intros d Hd.
  - simpl in *. split; [lra | auto].
  - rewrite S_INR in Hd. cbn [while_le_m180].
    destruct (Rle_dec d (-180)) as [Hle|Hgt].
    + replace (Rleb d (-180)) with true by (symmetry; apply Rleb_true; lra).
      destruct (IH (d + 360) ltac:(lra)) as (H1 & H2).
      split; [exact H1 | intros _; apply H2; lra].
    + replace (Rleb d (-180)) with false by (symmetry; apply Rleb_false; lra).
      split; [lra | auto].
Qed.

Lemma displayAngleOf_range laserAngle :
  -180 < displayAngleOf laserAngle <= 180.
Proof.
  unfold displayAngleOf.
  set (d := - laserAngle).
  pose proof (loopBound_enough d) as Hb1.
  assert (Hd : d <= 180 + 360 * INR (loopBound d)).
  { pose proof (Rle_abs d). lra. }
  destruct (while_gt_180_spec (loopBound d) d Hd) as (H1 & _ & _).
  set (d' := while_gt_180 (loopBound d) d) in *.
  pose proof (loopBound_enough d') as Hb2.
  assert (Hd' : -180 - 360 * INR (loopBound d') < d').
  { pose proof (Rle_abs (- d')). rewrite Rabs_Ropp in *. lra. }
  destruct (while_le_m180_spec (loopBound d') d' Hd') as (H3 & H4).
  split; [exact H3 | apply H4, H1].
Qed.

(** ** A run of the scene

    Two rays are created, the first is deleted, a third is created: the
    scene holds the ids 1 and 2, and 0 is not handed out again. *)
Lemma ids_after_delete_example :
  map Laser.id
    (lasers (run parseTwo toFixedBlank initialState
               [CanvasClick outsideClick; CanvasClick outsideClick;
                LaserDoubleClick 0%Z; CanvasClick outsideClick]))
  = [1%Z; 2%Z].
Proof.
  unfold run. cbn [fold_left step].
  destruct (handleCanvasClick_outsideClick initialState)
    as (l0 & Hid0 & E0); try reflexivity.
  rewrite E0. cbn [nextId initialState lasers app] in *.
  set (s1 := setNextId (setLasers initialState [l0]) (0 + 1)).
  destruct (handleCanvasClick_outsideClick s1)
    as (l1 & Hid1 & E1); try reflexivity.
  rewrite E1. cbn [s1 nextId setNextId setLasers lasers app] in *.
  unfold handleLaserDoubleClick.
  cbn [lasers setLasers setNextId filter].
  rewrite Hid0, Hid1. cbn [Z.eqb negb Z.add Pos.add Pos.eqb Pos.succ].
  set (s3 := setLasers _ [l1]).
  destruct (handleCanvasClick_outsideClick s3)
    as (l2 & Hid2 & E2); try reflexivity.
  rewrite E2. cbn [s3 s1 nextId setNextId setLasers lasers app map] in *.
  rewrite Hid1, Hid2. reflexivity.
Qed.

(** The path the renderer computes for a ray placed 300 pixels to the
    right of the body in the initial scene. *)
Lemma renderedPath_example :
  renderedPath initialState (Laser.mk 0 300 0 true 0 dir_right)
  = Solver.calculateLightPath 700 400 0 800 800 600 1 false.
Proof.
  unfold renderedPath. rewrite BH_SIZE_initial.
  cbn [Laser.x Laser.y Laser.angle size zoom gravityEnabled initialState
         sz_width sz_height].
  replace (300 + 800 / 2) with 700 by lra.
  replace (0 + 800 / 2) with 400 by lra.
  reflexivity.
Qed.

(** * Further properties of the code *)
(** ** The points of a path *)


(** X1.  The returned sequence is exactly the points of the iterations
    that come before the first one at which a [break] fires: with [n] its
    length, it is the list of the points of iterations 0 .. n-1, no test
    fired in those iterations, and either n is the budget of 4000 or one
    of the two tests fires in iteration n. *)
Theorem path_is_prefix_until_first_break :
  forall startX startY angleDeg width height bhSize zoom gravityEnabled,
    let path :=
      Solver.calculateLightPath startX startY angleDeg width height bhSize
        zoom gravityEnabled in
    let n := length path in
    path = Solver.pointsOf startX startY angleDeg width height bhSize zoom
             gravityEnabled n /\
    (n <= 4000)%nat /\
    (forall j, (j < n)%nat ->
        Solver.captured bhSize gravityEnabled
          (Solver.stateAt startX startY angleDeg width height bhSize
             gravityEnabled j) = false /\
        Solver.escaped width height zoom
          (Solver.stateAt startX startY angleDeg width height bhSize
             gravityEnabled j) = false) /\
    ((n < 4000)%nat ->
     Solver.captured bhSize gravityEnabled
       (Solver.stateAt startX startY angleDeg width height bhSize
          gravityEnabled n) = true \/
     Solver.escaped width height zoom
       (Solver.stateAt startX startY angleDeg width height bhSize
          gravityEnabled n) = true).
Proof.
  intros startX startY angleDeg width height bhSize zoom gravityEnabled.
  destruct (path_shape startX startY angleDeg width height bhSize zoom
              gravityEnabled) as (m & Hm & Heq & Hrun & Hstop).
  cbv zeta. rewrite Heq, pointsOf_length.
  split; [reflexivity|]. split; [exact Hm|]. split; [exact Hrun | exact Hstop].
Qed.

Lemma orb_false_5 a b c d e :
  a || b || c || d || e = false ->
  a = false /\ b = false /\ c = false /\ d = false /\ e = false.
Proof. destruct a, b, c, d, e; cbn; intros H; try discriminate; auto. Qed.

(** The point recorded in an iteration in which no test fired. *)
Lemma pushed_within_bounds width height bhSize zoom gravityEnabled y :
  Solver.captured bhSize gravityEnabled y = false ->
  Solver.escaped width height zoom y = false ->
  let p := Solver.pushed width height zoom y in
  let d := Math.hypot (Point.x p - width / 2) (Point.y p - height / 2) in
  Solver.effectiveRs bhSize gravityEnabled * 1.001 < d /\
  d <= Math.max width height * (1.5 / zoom) /\
  (- (1 / zoom)) * width <= Point.x p <= width * (1 / zoom) /\
  (- (1 / zoom)) * height <= Point.y p <= height * (1 / zoom).
Proof.
  destruct y as [[r phi] p_r]. intros Hc He. cbv zeta.
  unfold Solver.captured in Hc. apply Rleb_false in Hc.
  unfold Solver.escaped in He. apply orb_false_5 in He.
  destruct He as (H1 & H2 & H3 & H4 & H5).
  apply Rgtb_false in H1, H3, H5. apply Rltb_false in H2, H4.
  cbn [Solver.pushed Point.x Point.y].
  unfold Solver.maxDistance in H1.
  unfold Solver.xPix, Solver.yPix, Solver.centerX, Solver.centerY in *.
  replace (r * Math.cos phi + width / 2 - width / 2)
    with (r * Math.cos phi) in * by ring.
  replace (r * Math.sin phi + height / 2 - height / 2)
    with (r * Math.sin phi) in * by ring.
  rewrite hypot_polar in *.
  pose proof (Rle_abs r). repeat split; lra.
Qed.

(** X2.  As long as the run is finite, a returned point is within the
    bounds of the two tests: the point of iteration [k], when the first
    [k] steps have not divided by zero, lies farther than 1.001 rs_eff
    from the body center, no farther than max(width, height) * 1.5 / zoom
    from it, and inside the window
    [-width/zoom, width/zoom] x [-height/zoom, height/zoom]. *)
Theorem path_points_within_bounds :
  forall startX startY angleDeg width height bhSize zoom gravityEnabled
         (k : nat) (p : Point.t),
    nth_error
      (Solver.calculateLightPath startX startY angleDeg width height bhSize
         zoom gravityEnabled) k = Some p ->
    finiteRun startX startY angleDeg width height bhSize gravityEnabled k
      = true ->
    let d := Math.hypot (Point.x p - width / 2) (Point.y p - height / 2) in
    Solver.effectiveRs bhSize gravityEnabled * 1.001 < d /\
    d <= Math.max width height * (1.5 / zoom) /\
    (- (1 / zoom)) * width <= Point.x p <= width * (1 / zoom) /\
    (- (1 / zoom)) * height <= Point.y p <= height * (1 / zoom).
Proof.
  intros startX startY angleDeg width height bhSize zoom gravityEnabled k p
         Hnth _.
  apply path_nth in Hnth. destruct Hnth as [-> Hpass].
  destruct (Hpass k (Nat.le_refl k)) as [Hc He].
  apply (pushed_within_bounds _ _ _ _ _ _ Hc He).
Qed.

Lemma path_points_within_bounds_witness :
  let p :=
    Solver.pushed 800 800 1 (Solver.stateAt 700 400 0 800 800 600 true 1) in
  let d := Math.hypot (Point.x p - 800 / 2) (Point.y p - 800 / 2) in
  nth_error (Solver.calculateLightPath 700 400 0 800 800 600 1 true) 1
    = Some p /\
  finiteRun 700 400 0 800 800 600 true 1 = true /\
  Solver.effectiveRs 600 true * 1.001 < d /\
  d <= Math.max 800 800 * (1.5 / 1) /\
  (- (1 / 1)) * 800 <= Point.x p <= 800 * (1 / 1) /\
  (- (1 / 1)) * 800 <= Point.y p <= 800 * (1 / 1).
Proof.
  destruct (start_on_axis 300 800 800 ltac:(lra)) as [Hr0 _].
  destruct (frame_on_axis 300 0 800 800 ltac:(lra)) as [Hp HL].
  destruct direction_0 as [Hvx Hvy]. rewrite Hvx in Hp. rewrite Hvy in HL.
  replace (800 / 2 + 300) with 700 in Hr0, Hp, HL by lra.
  replace (800 / 2) with 400 in Hr0, Hp, HL by lra.
  replace (0 * 300) with 0 in HL by lra.
  assert (Hpass : forall j, (j <= 1)%nat ->
            Solver.captured 600 true
              (Solver.stateAt 700 400 0 800 800 600 true j) = false /\
            Solver.escaped 800 800 1
              (Solver.stateAt 700 400 0 800 800 600 true j) = false).
  { intros j Hj. rewrite stateAt_radial by exact HL. rewrite Hr0, Hp.
    assert (Hj' : 0 <= INR j <= 1).
    { split; [apply pos_INR|]. apply (le_INR j 1) in Hj. exact Hj. }
    unfold Solver.h, Solver.rs. split.
    - unfold Solver.captured, Solver.effectiveRs, Solver.rs, Solver.massFactor.
      apply Rleb_false. nra.
    - apply not_escaped_near_center. rewrite Rabs_pos_eq; nra. }
  assert (Hnth :
    nth_error (Solver.calculateLightPath 700 400 0 800 800 600 1 true) 1
    = Some (Solver.pushed 800 800 1
              (Solver.stateAt 700 400 0 800 800 600 true 1))).
  { apply path_reaches; [unfold maxSteps; lia | exact Hpass]. }
  assert (Hfin : finiteRun 700 400 0 800 800 600 true 1 = true).
  { apply finiteRun_radial_outward; lra. }
  cbv zeta. split; [exact Hnth|]. split; [exact Hfin|].
  apply (path_points_within_bounds 700 400 0 800 800 600 1 true 1%nat _
           Hnth Hfin).
Defined.


(** The first state seen from the start point. *)
Lemma start_state_tests startX startY angleDeg width height bhSize zoom
      gravityEnabled :
  let d0 := Math.hypot (startX - width / 2) (startY - height / 2) in
  (Solver.captured bhSize gravityEnabled
     (Solver.stateAt startX startY angleDeg width height bhSize
        gravityEnabled 0) = false
   <-> Solver.effectiveRs bhSize gravityEnabled * 1.001 < d0) /\
  (Solver.escaped width height zoom
     (Solver.stateAt startX startY angleDeg width height bhSize
        gravityEnabled 0) = false
   <-> d0 <= Math.max width height * (1.5 / zoom) /\
       (- (1 / zoom)) * width <= startX <= width * (1 / zoom) /\
       (- (1 / zoom)) * height <= startY <= height * (1 / zoom)).
Proof.
  cbv zeta. cbn [Solver.stateAt]. split.
  - unfold Solver.captured. rewrite Rleb_false. reflexivity.
  - destruct (pushed_start startX startY angleDeg width height bhSize zoom
                gravityEnabled) as [Hx Hy].
    cbn [Solver.stateAt Solver.pushed Point.x Point.y] in Hx, Hy.
    unfold Solver.escaped. rewrite Hx, Hy.
    unfold Solver.maxDistance, Solver.centerX, Solver.centerY.
    split.
    + intros He. apply orb_false_5 in He.
      destruct He as (H1 & H2 & H3 & H4 & H5).
      apply Rgtb_false in H1, H3, H5. apply Rltb_false in H2, H4.
      repeat split; lra.
    + intros (H1 & [H2 H3] & [H4 H5]).
      repeat (apply orb_false_intro);
        first [apply Rgtb_false | apply Rltb_false]; lra.
Qed.

(** X3.  The call returns a non-empty sequence exactly when the start
    point lies farther than 1.001 rs_eff from the body center, no farther
    than max(width, height) * 1.5 / zoom from it, and inside the window
    [-width/zoom, width/zoom] x [-height/zoom, height/zoom]; a ray
    dragged into the body, or placed out of range, has an empty path. *)
Theorem path_nonempty_iff_start_in_range :
  forall startX startY angleDeg width height bhSize zoom gravityEnabled,
    let d0 := Math.hypot (startX - width / 2) (startY - height / 2) in
    Solver.calculateLightPath startX startY angleDeg width height bhSize zoom
      gravityEnabled <> []
    <-> Solver.effectiveRs bhSize gravityEnabled * 1.001 < d0 /\
        d0 <= Math.max width height * (1.5 / zoom) /\
        (- (1 / zoom)) * width <= startX <= width * (1 / zoom) /\
        (- (1 / zoom)) * height <= startY <= height * (1 / zoom).
Proof.
  intros startX startY angleDeg width height bhSize zoom gravityEnabled d0.
  destruct (start_state_tests startX startY angleDeg width height bhSize zoom
              gravityEnabled) as [Hcap Hesc].
  fold d0 in Hcap, Hesc.
  destruct (path_shape startX startY angleDeg width height bhSize zoom
              gravityEnabled) as (m & Hm & Heq & Hrun & Hstop).
  rewrite Heq. split.
  - intros Hne. destruct m as [|m]; [now contradiction Hne|].
    destruct (Hrun 0%nat ltac:(lia)) as [Hc He].
    split; [apply Hcap, Hc | apply Hesc, He].
  - intros [Hd Hrest]. apply Hcap in Hd. apply Hesc in Hrest.
    destruct m as [|m]; [|unfold Solver.pointsOf; cbn [seq map]; discriminate].
    exfalso. assert (Hlt : (0 < maxSteps)%nat) by (unfold maxSteps; lia).
    destruct (Hstop Hlt) as [H|H]; congruence.
Qed.

(** ** Rays the body does not bend *)

(** X4.  A ray without angular momentum (L = 0: it is emitted along the
    line through the body center) is not deflected, with gravitation on
    or off, for a body of size bhSize >= 0: as long as the run is finite,
    the point of iteration [k] lies exactly k * h along the Euclidean ray
    from the start point in the direction of emission.  The whole run is
    finite when gravitation is on or when the ray points away from the
    center, and every returned point is then on the ray. *)
Theorem radial_ray_is_straight :
  forall startX startY angleDeg width height bhSize zoom gravityEnabled,
    0 <= bhSize ->
    Solver.L startX startY angleDeg width height = 0 ->
    let path :=
      Solver.calculateLightPath startX startY angleDeg width height bhSize
        zoom gravityEnabled in
    (forall k p,
        nth_error path k = Some p ->
        finiteRun startX startY angleDeg width height bhSize gravityEnabled k
          = true ->
        Point.x p = startX + (INR k * Solver.h bhSize) * Solver.vx angleDeg /\
        Point.y p = startY + (INR k * Solver.h bhSize) * Solver.vy angleDeg /\
        onRayWithin 0 startX startY angleDeg p) /\
    (gravityEnabled = true \/
     0 <= Solver.p_r0 startX startY angleDeg width height ->
     finiteRun startX startY angleDeg width height bhSize gravityEnabled
       (length path) = true /\
     Forall (onRayWithin 0 startX startY angleDeg) path).
Proof.
  intros startX startY angleDeg width height bhSize zoom gravityEnabled Hb HL
         path.
  assert (Hon : forall k p,
            nth_error path k = Some p ->
            Point.x p = startX + (INR k * Solver.h bhSize) * Solver.vx angleDeg /\
            Point.y p = startY + (INR k * Solver.h bhSize) * Solver.vy angleDeg /\
            onRayWithin 0 startX startY angleDeg p).
  { intros k p Hnth. apply path_nth in Hnth. destruct Hnth as [-> Hpass].
    destruct (Hpass 0%nat (Nat.le_0_l k)) as [Hc0 _].
    cbn [Solver.stateAt] in Hc0. unfold Solver.captured in Hc0.
    apply Rleb_false in Hc0.
    assert (Hr0 : 0 < Solver.r0 startX startY width height).
    { unfold Solver.effectiveRs, Solver.rs, Solver.massFactor in Hc0.
      destruct gravityEnabled; nra. }
    destruct (radial_point_on_ray startX startY angleDeg width height bhSize
                zoom gravityEnabled k HL Hr0) as [Hx Hy].
    split; [exact Hx|]. split; [exact Hy|].
    exists (INR k * Solver.h bhSize). split; [|split].
    - pose proof (pos_INR k). unfold Solver.h, Solver.rs. nra.
    - apply closeTo_exact, Hx.
    - apply closeTo_exact, Hy. }
  split; [intros k p Hnth _; apply Hon, Hnth|].
  intros Hcase. split.
  - destruct (length path) as [|n] eqn:Hlen; [reflexivity|].
    rewrite <- Hlen.
    assert (Hc0 : Solver.captured bhSize gravityEnabled
                    (Solver.stateAt startX startY angleDeg width height bhSize
                       gravityEnabled 0) = false).
    { apply (path_steps_not_captured startX startY angleDeg width height
               bhSize zoom gravityEnabled). fold path. lia. }
    destruct Hcase as [Hg|Hout].
    + apply finiteRun_radial_gravity; [exact Hb|exact HL|exact Hg|].
      intros j Hj.
      apply (path_steps_not_captured startX startY angleDeg width height
               bhSize zoom gravityEnabled). exact Hj.
    + cbn [Solver.stateAt] in Hc0. unfold Solver.captured in Hc0.
      apply Rleb_false in Hc0.
      apply finiteRun_radial_outward; [exact Hb|exact HL| |exact Hout].
      unfold Solver.effectiveRs, Solver.rs, Solver.massFactor in Hc0.
      destruct gravityEnabled; nra.
  - apply Forall_forall. intros p Hin.
    apply In_nth_error in Hin. destruct Hin as [k Hk].
    apply (Hon k p Hk).
Qed.

Lemma radial_ray_is_straight_witness :
  finiteRun 700 400 180 800 800 600 true
    (length (Solver.calculateLightPath 700 400 180 800 800 600 1 true))
    = true /\
  Forall (onRayWithin 0 700 400 180)
    (Solver.calculateLightPath 700 400 180 800 800 600 1 true).
Proof.
  assert (HL : Solver.L 700 400 180 800 800 = 0).
  { destruct (frame_on_axis 300 180 800 800 ltac:(lra)) as [_ HL].
    destruct direction_180 as [_ Hvy]. rewrite Hvy in HL.
    replace (800 / 2 + 300) with 700 in HL by lra.
    replace (800 / 2) with 400 in HL by lra.
    rewrite HL. ring. }
  apply (radial_ray_is_straight 700 400 180 800 800 600 1 true
           ltac:(lra) HL).
  left. reflexivity.
Defined.

(** ** The circular orbit *)

Section PhotonSphere.

Variables (startX startY angleDeg width height bhSize : R).

Local Abbreviation stateAt :=
  (Solver.stateAt startX startY angleDeg width height bhSize true).
Local Abbreviation derivs :=
  (Solver.derivs startX startY angleDeg width height bhSize true).
Local Abbreviation L := (Solver.L startX startY angleDeg width height).
Local Abbreviation r0 := (Solver.r0 startX startY width height).
Local Abbreviation phi0 := (Solver.phi0 startX startY width height).

Hypothesis body : 0 < bhSize.
Hypothesis on_circle : r0 = 1.5 * Solver.rs bhSize.

(** On the circle r = 1.5 rs the radial force vanishes. *)
Lemma derivs_on_circle r phi p_r :
  r = r0 -> p_r = 0 -> derivs (r, phi, p_r) = (0, L / (r0 * r0), 0).
Proof.
  intros -> ->. unfold Solver.derivs, Solver.effectiveRs, Solver.massFactor.
  rewrite on_circle.
  assert (Hrs : Solver.rs bhSize <> 0) by (unfold Solver.rs; lra).
  f_equal. replace (-0.5) with (- (1 / 2)) by lra.
  replace 1.5 with (3 / 2) by lra. field. exact Hrs.
Qed.

Lemma rk4_on_circle phi hh :
  rk4 (r0, phi, 0) hh derivs = (r0, phi + hh * (L / (r0 * r0)), 0).
Proof.
  unfold rk4.
  repeat (rewrite derivs_on_circle by ring).
  set (c := L / (r0 * r0)).
  f_equal; [f_equal|]; field.
Qed.

Lemma stateAt_on_circle k :
  Solver.p_r0 startX startY angleDeg width height = 0 ->
  stateAt k = (r0, phi0 + INR k * (Solver.h bhSize * (L / (r0 * r0))), 0).
Proof.
  intros Hp. induction k as [|k IH].
  - cbn [Solver.stateAt]. rewrite Hp. simpl INR. f_equal. f_equal. ring.
  - rewrite stateAt_S, IH, rk4_on_circle, S_INR. f_equal. f_equal. ring.
Qed.

End PhotonSphere.

(** X5.  The circular orbit.  With gravitation on, a ray that starts at
    1.5 body radii from the center with no radial momentum (it is emitted
    tangentially) stays on that circle: the radius and the radial
    momentum never change, the polar angle grows by the same amount
    h * L / r0^2 in every step, and every point of the path lies at 1.5
    body radii from the center.  When the circle fits into the escape
    window no test ever fires and the path has exactly 4000 points. *)
Theorem circular_orbit_at_photon_sphere :
  forall startX startY angleDeg width height bhSize zoom,
    0 < bhSize ->
    Solver.r0 startX startY width height = 1.5 * Solver.rs bhSize ->
    Solver.p_r0 startX startY angleDeg width height = 0 ->
    (forall k,
        Solver.stateAt startX startY angleDeg width height bhSize true k
        = (1.5 * Solver.rs bhSize,
           Solver.phi0 startX startY width height
           + INR k * (Solver.h bhSize
                      * (Solver.L startX startY angleDeg width height
                         / (1.5 * Solver.rs bhSize * (1.5 * Solver.rs bhSize)))),
           0)) /\
    Forall
      (fun p =>
         Math.hypot (Point.x p - width / 2) (Point.y p - height / 2)
         = 1.5 * Solver.rs bhSize)
      (Solver.calculateLightPath startX startY angleDeg width height bhSize
         zoom true) /\
    (1.5 * Solver.rs bhSize <= Math.max width height * (1.5 / zoom) ->
     (- (1 / zoom)) * width <= width / 2 - 1.5 * Solver.rs bhSize ->
     width / 2 + 1.5 * Solver.rs bhSize <= width * (1 / zoom) ->
     (- (1 / zoom)) * height <= height / 2 - 1.5 * Solver.rs bhSize ->
     height / 2 + 1.5 * Solver.rs bhSize <= height * (1 / zoom) ->
     length (Solver.calculateLightPath startX startY angleDeg width height
               bhSize zoom true) = 4000%nat).
Proof.
  intros startX startY angleDeg width height bhSize zoom Hb Hr0 Hp.
  assert (Hst : forall k,
    Solver.stateAt startX startY angleDeg width height bhSize true k
    = (1.5 * Solver.rs bhSize,
       Solver.phi0 startX startY width height
       + INR k * (Solver.h bhSize
                  * (Solver.L startX startY angleDeg width height
                     / (1.5 * Solver.rs bhSize * (1.5 * Solver.rs bhSize)))),
       0)).
  { intros k.
    rewrite (stateAt_on_circle startX startY angleDeg width height bhSize
               Hb Hr0 k Hp).
    rewrite Hr0. reflexivity. }
  assert (Hrs : 0 < Solver.rs bhSize) by (unfold Solver.rs; lra).
  split; [exact Hst|]. split.
  - apply Forall_forall. intros p Hin. apply path_In in Hin.
    destruct Hin as (j & -> & _). rewrite Hst.
    cbn [Solver.pushed Point.x Point.y Solver.xPix Solver.yPix].
    unfold Solver.centerX, Solver.centerY.
    match goal with
    | |- Math.hypot (?r * Math.cos ?a + _ - _) (?r * Math.sin ?a + _ - _) = _ =>
        replace (r * Math.cos a + width / 2 - width / 2)
          with (r * Math.cos a) by ring;
        replace (r * Math.sin a + height / 2 - height / 2)
          with (r * Math.sin a) by ring
    end.
    rewrite hypot_polar. apply Rabs_pos_eq. lra.
  - intros Hmax Hxl Hxr Hyl Hyr.
    rewrite path_budget; [apply pointsOf_length|].
    intros j _. rewrite Hst. split.
    + unfold Solver.captured, Solver.effectiveRs, Solver.massFactor.
      apply Rleb_false. lra.
    + unfold Solver.escaped, Solver.xPix, Solver.yPix, Solver.maxDistance,
        Solver.centerX, Solver.centerY.
      match goal with
      | |- context [Math.cos ?a] => set (phi := a)
      end.
      replace (1.5 * Solver.rs bhSize * Math.cos phi + width / 2 - width / 2)
        with (1.5 * Solver.rs bhSize * Math.cos phi) by ring.
      replace (1.5 * Solver.rs bhSize * Math.sin phi + height / 2 - height / 2)
        with (1.5 * Solver.rs bhSize * Math.sin phi) by ring.
      rewrite hypot_polar, Rabs_pos_eq by lra.
      pose proof (cos_bounds phi). pose proof (sin_bounds phi).
      repeat (apply orb_false_intro);
        first [apply Rgtb_false | apply Rltb_false]; nra.
Qed.

Lemma circular_orbit_at_photon_sphere_witness :
  (forall k,
      Solver.stateAt 625 400 90 800 800 600 true k
      = (1.5 * Solver.rs 600,
         Solver.phi0 625 400 800 800
         + INR k * (Solver.h 600
                    * (Solver.L 625 400 90 800 800
                       / (1.5 * Solver.rs 600 * (1.5 * Solver.rs 600)))),
         0)) /\
  Forall
    (fun p =>
       Math.hypot (Point.x p - 800 / 2) (Point.y p - 800 / 2)
       = 1.5 * Solver.rs 600)
    (Solver.calculateLightPath 625 400 90 800 800 600 1 true) /\
  (1.5 * Solver.rs 600 <= Math.max 800 800 * (1.5 / 1) ->
   (- (1 / 1)) * 800 <= 800 / 2 - 1.5 * Solver.rs 600 ->
   800 / 2 + 1.5 * Solver.rs 600 <= 800 * (1 / 1) ->
   (- (1 / 1)) * 800 <= 800 / 2 - 1.5 * Solver.rs 600 ->
   800 / 2 + 1.5 * Solver.rs 600 <= 800 * (1 / 1) ->
   length (Solver.calculateLightPath 625 400 90 800 800 600 1 true)
   = 4000%nat).
Proof.
  destruct (start_on_axis 225 800 800 ltac:(lra)) as [Hr0 _].
  destruct (frame_on_axis 225 90 800 800 ltac:(lra)) as [Hp _].
  destruct direction_90 as [Hvx _]. rewrite Hvx in Hp.
  replace (800 / 2 + 225) with 625 in Hr0, Hp by lra.
  replace (800 / 2) with 400 in Hr0, Hp by lra.
  apply (circular_orbit_at_photon_sphere 625 400 90 800 800 600 1).
  - lra.
  - rewrite Hr0. unfold Solver.rs. lra.
  - exact Hp.
Defined.

(** ** The Runge-Kutta step *)

Lemma rk4_zero_step y derivs : rk4 y 0 derivs = y.
Proof.
  destruct y as [[y0 y1] y2]. unfold rk4.
  destruct (derivs (y0, y1, y2)) as [[a0 a1] a2].
  destruct (derivs (y0 + 0.5 * 0 * a0, y1 + 0.5 * 0 * a1, y2 + 0.5 * 0 * a2))
    as [[b0 b1] b2].
  destruct (derivs (y0 + 0.5 * 0 * b0, y1 + 0.5 * 0 * b1, y2 + 0.5 * 0 * b2))
    as [[c0 c1] c2].
  destruct (derivs (y0 + 0 * c0, y1 + 0 * c1, y2 + 0 * c2)) as [[d0 d1] d2].
  f_equal; [f_equal|]; lra.
Qed.

(** X6.  One step of [rk4] is consistent: in a constant derivative field
    it advances each component by exactly [h] times the derivative, and a
    step of size 0 leaves every state where it is, whatever the field. *)
Theorem rk4_constant_field_and_zero_step :
  forall (y0 y1 y2 h c0 c1 c2 : R) (derivs : vec3 -> vec3),
    rk4 (y0, y1, y2) h (fun _ => (c0, c1, c2))
    = (y0 + h * c0, y1 + h * c1, y2 + h * c2) /\
    rk4 (y0, y1, y2) 0 derivs = (y0, y1, y2).
Proof.
  intros y0 y1 y2 h c0 c1 c2 derivs. split.
  - unfold rk4. f_equal; [f_equal|]; field.
  - apply rk4_zero_step.
Qed.

Lemma map_const_repeat {A : Type} (f : nat -> A) (c : A) n :
  forall a, (forall j, f j = c) -> map f (seq a n) = repeat c n.
Proof.
  induction n as [|n IH]; intros a Hf; [reflexivity|].
  cbn [seq map repeat]. rewrite Hf, IH by exact Hf. reflexivity.
Qed.

(** X7.  A body of size 0 gives a step of size 0: the state never moves,
    so the call returns either nothing (the start point fails a test) or
    the start point 4000 times, the step budget being all that ends the
    loop. *)
Theorem zero_size_body_path :
  forall startX startY angleDeg width height zoom gravityEnabled,
    Solver.calculateLightPath startX startY angleDeg width height 0 zoom
      gravityEnabled = [] \/
    Solver.calculateLightPath startX startY angleDeg width height 0 zoom
      gravityEnabled = repeat (Point.mk startX startY zoom) 4000.
Proof.
  intros startX startY angleDeg width height zoom gravityEnabled.
  assert (Hst : forall k,
    Solver.stateAt startX startY angleDeg width height 0 gravityEnabled k
    = Solver.stateAt startX startY angleDeg width height 0 gravityEnabled 0).
  { induction k as [|k IH]; [reflexivity|].
    rewrite stateAt_S, IH.
    replace (Solver.h 0) with 0 by (unfold Solver.h, Solver.rs; lra).
    apply rk4_zero_step. }
  destruct (path_shape startX startY angleDeg width height 0 zoom
              gravityEnabled) as (m & Hm & Heq & Hrun & Hstop).
  destruct (Nat.eq_dec m maxSteps) as [->|Hne].
  - right. rewrite Heq. unfold Solver.pointsOf.
    rewrite (map_const_repeat _ (Point.mk startX startY zoom)).
    + reflexivity.
    + intros j. rewrite Hst.
      destruct (pushed_start startX startY angleDeg width height 0 zoom
                  gravityEnabled) as [Hx Hy].
      cbn [Solver.pushed Point.x Point.y] in Hx, Hy.
      unfold Solver.pushed. rewrite Hx, Hy. reflexivity.
  - left. rewrite Heq. destruct m as [|m]; [reflexivity|]. exfalso.
    destruct (Hrun 0%nat ltac:(lia)) as [Hc He].
    destruct (Hstop ltac:(lia)) as [H|H]; rewrite Hst in H; congruence.
Qed.

(** ** Angles *)

Lemma js_rem_multiple a b : exists k : Z, js_rem a b = a - b * IZR k.
Proof. unfold js_rem. eexists. reflexivity. Qed.

Lemma normalizeAngle_multiple a :
  exists k : Z, normalizeAngle a = a + 360 * IZR k.
Proof.
  unfold normalizeAngle.
  destruct (js_rem_multiple a 360) as [k1 H1].
  destruct (js_rem_multiple (js_rem a 360 + 360) 360) as [k2 H2].
  exists (1 - k1 - k2)%Z. rewrite H2, H1, !minus_IZR. ring.
Qed.

(** Two angles of [0, 360) that differ by a whole number of turns are
    equal. *)
Lemma normalized_unique x y (k : Z) :
  0 <= x < 360 -> 0 <= y < 360 -> x = y + 360 * IZR k -> x = y.
Proof.
  intros Hx Hy Hxy.
  assert (Hk : (-1 < k < 1)%Z).
  { split; apply lt_IZR; simpl; lra. }
  assert (k = 0%Z) by lia. subst k. simpl in Hxy. lra.
Qed.

Lemma normalizeAngle_congruent a b (k : Z) :
  b = a + 360 * IZR k -> normalizeAngle b = normalizeAngle a.
Proof.
  intros Hb.
  destruct (normalizeAngle_multiple a) as [ka Ha].
  destruct (normalizeAngle_multiple b) as [kb Hb'].
  apply (normalized_unique _ _ (kb + k - ka)%Z);
    try apply normalizeAngle_range.
  rewrite Hb', Ha, Hb, minus_IZR, plus_IZR. ring.
Qed.

Lemma normalizeAngle_fixed a : 0 <= a < 360 -> normalizeAngle a = a.
Proof.
  intros Ha. destruct (normalizeAngle_multiple a) as [k Hk].
  apply (normalized_unique _ _ k); [apply normalizeAngle_range | exact Ha | exact Hk].
Qed.

Lemma normalizeAngle_add a b :
  normalizeAngle (normalizeAngle a + b) = normalizeAngle (a + b).
Proof.
  destruct (normalizeAngle_multiple a) as [k Hk].
  apply (normalizeAngle_congruent _ _ k). rewrite Hk. ring.
Qed.

(** X8.  [normalizeAngle] returns, for every angle, the one angle of
    [0, 360) that differs from it by a whole number of turns: the result
    is in range, it is the argument shifted by a multiple of 360, angles
    already in range are returned unchanged and normalizing twice is
    normalizing once. *)
Theorem normalizeAngle_canonical :
  forall a : R,
    0 <= normalizeAngle a < 360 /\
    (exists k : Z, normalizeAngle a = a + 360 * IZR k) /\
    (0 <= a < 360 -> normalizeAngle a = a) /\
    normalizeAngle (normalizeAngle a) = normalizeAngle a.
Proof.
  intros a. split; [apply normalizeAngle_range|].
  split; [apply normalizeAngle_multiple|].
  split; [apply normalizeAngle_fixed|].
  apply normalizeAngle_fixed, normalizeAngle_range.
Qed.

(** X9.  [normalizeAngle] is periodic: adding any whole number of turns
    to the argument does not change the result. *)
Theorem normalizeAngle_periodic :
  forall (a : R) (k : Z), normalizeAngle (a + 360 * IZR k) = normalizeAngle a.
Proof.
  intros a k. apply (normalizeAngle_congruent _ _ k). reflexivity.
Qed.

(** X10.  Rotation steps add up: two successive move steps of a
    rotate-drag leave the component in the state that the single move
    to the last pointer position produces, so the angle depends on the
    total horizontal travel only. *)
Theorem rotate_steps_compose :
  forall (s : State) (e1 e2 : MouseEvent) (rotating : Z) (lastX : R),
    rotatingLaserId s = Some rotating -> lastMouseX s = Some lastX ->
    handleMouseMove (handleMouseMove s e1) e2 = handleMouseMove s e2.
Proof.
  intros s e1 e2 rotating lastX Hrot Hlast.
  unfold handleMouseMove at 2. rewrite Hrot, Hlast.
  unfold handleMouseMove.
  cbn [rotatingLaserId lastMouseX setLastMouseX setLasers lasers].
  rewrite Hrot, Hlast. unfold setLastMouseX, setLasers.
  cbn [zoom gravityEnabled showGrid editingLaserId tempInputValues size
         lasers nextId isDragging dragOffset draggedLaserId rotatingLaserId
         lastMouseX panOffset isPanning panStart wasPanning].
  f_equal. rewrite map_map. apply map_ext. intros l.
  destruct (Z.eqb (Laser.id l) rotating) eqn:Hid; [|now rewrite Hid].
  cbn [Laser.id Laser.with_angle]. rewrite Hid.
  unfold Laser.with_angle. cbn [Laser.id Laser.x Laser.y Laser.fired
                                  Laser.angle Laser.direction].
  f_equal. rewrite normalizeAngle_add. f_equal. ring.
Qed.

Lemma rotate_steps_compose_witness :
  handleMouseMove (handleMouseMove rotatingRay0 pointerAt640) secondaryDown
  = handleMouseMove rotatingRay0 secondaryDown.
Proof.
  apply (rotate_steps_compose rotatingRay0 pointerAt640 secondaryDown 0%Z 620);
    reflexivity.
Defined.

(** ** The edit dialog: display values and their way back *)

Lemma while_gt_180_multiple fuel :
  forall d, exists k : Z, while_gt_180 fuel d = d + 360 * IZR k.
Proof.
  induction fuel as [|fuel IH]; intros d.
  - exists 0%Z. simpl. ring.
  - cbn [while_gt_180]. destruct (Rgtb d 180).
    + destruct (IH (d - 360)) as [k Hk]. exists (k - 1)%Z.
      rewrite Hk, minus_IZR. ring.
    + exists 0%Z. simpl. ring.
Qed.

Lemma while_le_m180_multiple fuel :
  forall d, exists k : Z, while_le_m180 fuel d = d + 360 * IZR k.
Proof.
  induction fuel as [|fuel IH]; intros d.
  - exists 0%Z. simpl. ring.
  - cbn [while_le_m180]. destruct (Rleb d (-180)).
    + destruct (IH (d + 360)) as [k Hk]. exists (k + 1)%Z.
      rewrite Hk, plus_IZR. ring.
    + exists 0%Z. simpl. ring.
Qed.

Lemma displayAngleOf_multiple a :
  exists k : Z, displayAngleOf a = - a + 360 * IZR k.
Proof.
  unfold displayAngleOf.
  destruct (while_gt_180_multiple (loopBound (- a)) (- a)) as [k1 H1].
  destruct (while_le_m180_multiple
              (loopBound (while_gt_180 (loopBound (- a)) (- a)))
              (while_gt_180 (loopBound (- a)) (- a))) as [k2 H2].
  exists (k1 + k2)%Z. rewrite H2, H1, plus_IZR. ring.
Qed.

Lemma displayAngle_range_and_return_aux a :
  0 <= a < 360 -> normalizeAngle (- displayAngleOf a) = a.
Proof.
  intros Ha. destruct (displayAngleOf_multiple a) as [k Hk].
  rewrite <- (normalizeAngle_fixed a Ha) at 2.
  apply (normalizeAngle_congruent _ _ (- k)%Z).
  rewrite Hk, opp_IZR. ring.
Qed.

(** X11.  The angle shown when the edit dialog opens is the physics-
    convention angle of the ray: it lies in (-180, 180], it is the
    negated screen angle up to whole turns, and entering it in the angle
    field gives back the screen angle of a ray whose angle is in
    [0, 360). *)
Theorem displayAngle_range_and_return :
  forall laserAngle : R,
    -180 < displayAngleOf laserAngle <= 180 /\
    (exists k : Z, displayAngleOf laserAngle = - laserAngle + 360 * IZR k) /\
    (0 <= laserAngle < 360 ->
     normalizeAngle (- displayAngleOf laserAngle) = laserAngle).
Proof.
  intros a. split; [apply displayAngleOf_range|].
  split; [apply displayAngleOf_multiple|].
  apply displayAngle_range_and_return_aux.
Qed.

(** X12.  Edit round trip.  The values the dialog computes for a ray
    when it opens (x / rs, -y / rs and the display angle), committed back
    through the field edits without rounding, reproduce the ray exactly,
    provided rs is not 0 and the angle of the ray is in [0, 360). *)
Theorem edit_round_trip :
  forall (laser : Laser.t) (rs0 : R),
    rs0 <> 0 -> 0 <= Laser.angle laser < 360 ->
    editLaser field_x (Laser.x laser / rs0) rs0 laser = laser /\
    editLaser field_y ((- Laser.y laser) / rs0) rs0 laser = laser /\
    editLaser field_angle (displayAngleOf (Laser.angle laser)) rs0 laser
    = laser.
Proof.
  intros [i x y f a d] rs0 Hrs Ha. cbn [Laser.x Laser.y Laser.angle] in *.
  unfold editLaser, Laser.with_x, Laser.with_y, Laser.with_angle.
  cbn [Laser.id Laser.x Laser.y Laser.fired Laser.angle Laser.direction].
  split; [|split].
  - f_equal. field. exact Hrs.
  - f_equal. field. exact Hrs.
  - f_equal.
    change (js_rem (js_rem (- displayAngleOf a) 360 + 360) 360)
      with (normalizeAngle (- displayAngleOf a)).
    apply displayAngle_range_and_return_aux. exact Ha.
Qed.

Lemma edit_round_trip_witness :
  editLaser field_x (Laser.x (Laser.mk 0 300 0 true 90 dir_right) / 150) 150
    (Laser.mk 0 300 0 true 90 dir_right)
  = Laser.mk 0 300 0 true 90 dir_right /\
  editLaser field_y ((- Laser.y (Laser.mk 0 300 0 true 90 dir_right)) / 150)
    150 (Laser.mk 0 300 0 true 90 dir_right)
  = Laser.mk 0 300 0 true 90 dir_right /\
  editLaser field_angle
    (displayAngleOf (Laser.angle (Laser.mk 0 300 0 true 90 dir_right))) 150
    (Laser.mk 0 300 0 true 90 dir_right)
  = Laser.mk 0 300 0 true 90 dir_right.
Proof.
  apply (edit_round_trip (Laser.mk 0 300 0 true 90 dir_right) 150); cbn; lra.
Defined.

(** ** The viewport and the gestures *)

(** Split on every test a handler makes. *)
Ltac split_tests :=
  repeat match goal with
  | |- context [match ?c with _ => _ end] =>
      lazymatch c with
      | context [match _ with _ => _ end] => fail
      | _ => destruct c eqn:?
      end
  end.

Section Viewport.

Variable parseFloat : string -> option R.
Variable toFixed : R -> nat -> string.

Lemma handleWheel_zoomInRange s deltaY : zoomInRange (handleWheel s deltaY).
Proof.
  unfold zoomInRange, handleWheel, minZoom, maxZoom. cbn [zoom setZoom].
  destruct (Rltb (zoom s - deltaY * 0.001) 0.2) eqn:H1.
  - replace (Rgtb 0.2 2.5) with false by (symmetry; apply Rgtb_false; lra).
    lra.
  - apply Rltb_false in H1.
    destruct (Rgtb (zoom s - deltaY * 0.001) 2.5) eqn:H2.
    + lra.
    + apply Rgtb_false in H2. lra.
Qed.

Lemma step_zoomInRange s ev :
  zoomInRange s -> zoomInRange (step parseFloat toFixed s ev).
Proof.
  intros Hs. destruct ev; cbn [step].
  - apply handleWheel_zoomInRange.
  - unfold zoomInRange, handleCanvasClick. split_tests; exact Hs.
  - exact Hs.
  - unfold zoomInRange, handleLaserMouseDown. split_tests; exact Hs.
  - unfold zoomInRange, handleLaserEdit. split_tests; exact Hs.
  - exact Hs.
  - unfold zoomInRange, handleMouseMove. split_tests; exact Hs.
  - unfold zoomInRange, handleMouseDown. split_tests; exact Hs.
  - unfold zoomInRange, handleMouseUp. split_tests; exact Hs.
  - exact Hs.
  - exact Hs.
  - exact Hs.
  - unfold zoomInRange in *. cbn [zoom setZoom].
    unfold Math.max, Rmax, minZoom, maxZoom in *.
    destruct (Rle_dec 0.2 (zoom s - 0.2)); lra.
  - unfold zoomInRange in *. cbn [zoom setZoom].
    unfold Math.min, Rmin, minZoom, maxZoom in *.
    destruct (Rle_dec 2.5 (zoom s + 0.2)); lra.
  - exact Hs.
Qed.

Lemma run_zoomInRange evs :
  forall s, zoomInRange s -> zoomInRange (run parseFloat toFixed s evs).
Proof.
  induction evs as [|ev evs IH]; intros s Hs; [exact Hs|].
  rewrite run_cons. apply IH, step_zoomInRange, Hs.
Qed.

End Viewport.

Lemma initial_zoomInRange : zoomInRange initialState.
Proof. unfold zoomInRange, minZoom, maxZoom. cbn [zoom initialState]. lra. Qed.

(** X13.  In every scene that a sequence of events produces from the
    initial one the zoom factor lies in [0.2, 2.5]: the wheel and the two
    zoom buttons clamp it and nothing else writes it.  In particular the
    zoom factor is positive wherever a handler divides by it. *)
Theorem reachable_zoom_in_range :
  forall (parseFloat : string -> option R) (toFixed : R -> nat -> string)
         (evs : list Event),
    0.2 <= zoom (run parseFloat toFixed initialState evs) <= 2.5 /\
    0 < zoom (run parseFloat toFixed initialState evs).
Proof.
  intros parseFloat toFixed evs.
  pose proof (run_zoomInRange parseFloat toFixed evs initialState
                initial_zoomInRange) as H.
  unfold zoomInRange, minZoom, maxZoom in H. lra.
Qed.

(** ** Deleting a ray *)

Lemma filter_all_kept {A : Type} (keep : A -> bool) ls :
  (forall a, In a ls -> keep a = true) -> filter keep ls = ls.
Proof.
  induction ls as [|a ls IH]; intros H; [reflexivity|].
  cbn [filter]. rewrite (H a) by now left.
  f_equal. apply IH. intros b Hb. apply H. now right.
Qed.

Lemma filter_absent_id id ls :
  ~ In id (map Laser.id ls) ->
  filter (fun laser => negb (Z.eqb (Laser.id laser) id)) ls = ls.
Proof.
  intros Hnot. apply filter_all_kept. intros a Ha.
  destruct (Z.eqb_spec (Laser.id a) id) as [Heq|]; [|reflexivity].
  exfalso. apply Hnot. rewrite <- Heq. now apply in_map.
Qed.

Lemma filter_other_ids_length id ls :
  NoDup (map Laser.id ls) -> In id (map Laser.id ls) ->
  length ls
  = S (length (filter (fun laser => negb (Z.eqb (Laser.id laser) id)) ls)).
Proof.
  induction ls as [|l ls IH]; intros Hnd Hin; [destruct Hin|].
  cbn [map] in Hnd, Hin. apply NoDup_cons_iff in Hnd.
  destruct Hnd as [Hnotin Hnd']. cbn [filter length].
  destruct (Z.eqb_spec (Laser.id l) id) as [Heq|Hne]; cbn [negb length].
  - rewrite filter_absent_id; [reflexivity|]. now rewrite <- Heq.
  - f_equal. apply IH; [exact Hnd'|].
    destruct Hin as [Hin|Hin]; [contradiction|exact Hin].
Qed.

Lemma setLasers_same s : setLasers s (lasers s) = s.
Proof. destruct s. reflexivity. Qed.

(** X14.  A double click on a ray deletes the rays that carry its id and
    only those: afterwards the scene holds exactly the rays of before
    whose id differs, the id counter is untouched, and a double click
    for an id that no ray carries changes nothing at all.  In a scene
    produced from the initial one, where ids are unique, deleting a ray
    that is present shortens the list by exactly one. *)
Theorem delete_removes_exactly_that_ray :
  forall (parseFloat : string -> option R) (toFixed : R -> nat -> string)
         (evs : list Event) (id : Z),
    let s := run parseFloat toFixed initialState evs in
    let s' := handleLaserDoubleClick s id in
    (forall laser,
        In laser (lasers s') <-> In laser (lasers s) /\ Laser.id laser <> id) /\
    nextId s' = nextId s /\
    (~ In id (map Laser.id (lasers s)) -> s' = s) /\
    (In id (map Laser.id (lasers s)) ->
     length (lasers s) = S (length (lasers s'))).
Proof.
  intros parseFloat toFixed evs id s s'.
  unfold s', handleLaserDoubleClick. cbn [lasers setLasers nextId].
  split; [|split; [reflexivity|split]].
  - intros laser. rewrite filter_In.
    destruct (Z.eqb_spec (Laser.id laser) id); cbn [negb]; intuition congruence.
  - intros Hnot. rewrite filter_absent_id by exact Hnot.
    apply setLasers_same.
  - intros Hin. apply filter_other_ids_length; [|exact Hin].
    apply (run_idsFresh parseFloat toFixed evs initialState initial_idsFresh).
Qed.

(** ** Panning *)

(** X15.  The click that ends a pan places no ray: when a pan is in
    progress and the primary or the middle button goes up, the next
    canvas click leaves the rays and the id counter as they are and only
    clears the flag, so that the click after it is handled normally. *)
Theorem click_after_pan_is_swallowed :
  forall (s : State) (up click : MouseEvent),
    isPanning s = true ->
    button up = 0%Z \/ button up = 1%Z ->
    let s1 := handleMouseUp s up in
    let s2 := handleCanvasClick s1 click in
    wasPanning s1 = true /\ isPanning s1 = false /\
    lasers s2 = lasers s /\ nextId s2 = nextId s /\
    wasPanning s2 = false /\ isPanning s2 = false.
Proof.
  intros s up click Hpan Hbutton. cbv zeta.
  unfold handleMouseUp. rewrite Hpan.
  destruct Hbutton as [-> | ->]; cbn [Z.eqb];
    unfold handleCanvasClick;
    cbn [wasPanning setWasPanning setIsPanning setDraggedLaserId
           setIsDragging isPanning lasers nextId];
    repeat split; reflexivity.
Qed.

Lemma click_after_pan_is_swallowed_witness :
  wasPanning (handleMouseUp (handleMouseDown initialState middleDown) middleUp)
    = true /\
  isPanning (handleMouseUp (handleMouseDown initialState middleDown) middleUp)
    = false /\
  lasers (handleCanvasClick
            (handleMouseUp (handleMouseDown initialState middleDown) middleUp)
            outsideClick)
    = lasers (handleMouseDown initialState middleDown) /\
  nextId (handleCanvasClick
            (handleMouseUp (handleMouseDown initialState middleDown) middleUp)
            outsideClick)
    = nextId (handleMouseDown initialState middleDown) /\
  wasPanning (handleCanvasClick
                (handleMouseUp (handleMouseDown initialState middleDown)
                   middleUp) outsideClick) = false /\
  isPanning (handleCanvasClick
               (handleMouseUp (handleMouseDown initialState middleDown)
                  middleUp) outsideClick) = false.
Proof.
  apply (click_after_pan_is_swallowed
           (handleMouseDown initialState middleDown) middleUp outsideClick).
  - reflexivity.
  - right. reflexivity.
Defined.

(** X16.  A pan moves the view with the pointer: after the button-down
    that starts a pan, a move step (with no rotation and no drag in
    progress) sets the pan offset to the old offset plus the travel of
    the pointer since the button went down. *)
Theorem pan_follows_pointer :
  forall (s : State) (down move : MouseEvent),
    button down = 1%Z \/ (button down = 0%Z /\ altKey down = true) ->
    rotatingLaserId s = None \/ lastMouseX s = None ->
    isDragging s = false \/ draggedLaserId s = None ->
    let s2 := handleMouseMove (handleMouseDown s down) move in
    panOffset s2
    = mkXY (xy_x (panOffset s) + (clientX move - clientX down))
           (xy_y (panOffset s) + (clientY move - clientY down)) /\
    lasers s2 = lasers s /\ zoom s2 = zoom s.
Proof.
  intros s down move Hbutton Hrot Hdrag. cbv zeta.
  assert (Hdown : handleMouseDown s down
                  = setPanStart (setIsPanning s true)
                      (mkXY (clientX down - xy_x (panOffset s))
                            (clientY down - xy_y (panOffset s)))).
  { unfold handleMouseDown.
    destruct Hbutton as [-> | [-> ->]]; reflexivity. }
  rewrite Hdown. unfold handleMouseMove.
  cbn [rotatingLaserId lastMouseX isDragging draggedLaserId isPanning
         panStart setPanStart setIsPanning xy_x xy_y].
  assert (Hbranch :
    match rotatingLaserId s, lastMouseX s with
    | Some _, Some _ => False
    | _, _ => True
    end).
  { destruct Hrot as [H|H]; rewrite H; [exact I|].
    destruct (rotatingLaserId s); exact I. }
  assert (Hbranch2 :
    match isDragging s, draggedLaserId s with
    | true, Some _ => False
    | _, _ => True
    end).
  { destruct Hdrag as [H|H]; rewrite H; [exact I|].
    destruct (isDragging s); exact I. }
  destruct (rotatingLaserId s), (lastMouseX s); try contradiction;
    destruct (isDragging s), (draggedLaserId s); try contradiction;
    cbn [panOffset setPanOffset setPanStart setIsPanning lasers zoom];
    (split; [f_equal; ring | split; reflexivity]).
Qed.

Lemma pan_follows_pointer_witness :
  panOffset (handleMouseMove (handleMouseDown initialState middleDown) middleUp)
  = mkXY (xy_x (panOffset initialState) + (clientX middleUp - clientX middleDown))
         (xy_y (panOffset initialState) + (clientY middleUp - clientY middleDown)) /\
  lasers (handleMouseMove (handleMouseDown initialState middleDown) middleUp)
  = lasers initialState /\
  zoom (handleMouseMove (handleMouseDown initialState middleDown) middleUp)
  = zoom initialState.
Proof.
  apply (pan_follows_pointer initialState middleDown middleUp).
  - left. reflexivity.
  - left. reflexivity.
  - left. reflexivity.
Defined.

(** ** Gestures end with their button *)

(** X17.  Once the primary and the secondary button have gone up no
    gesture is left: every pointer move after that is the identity on
    the component state, so no ray, no pan offset and no flag changes
    until a button goes down again. *)
Theorem moves_after_release_change_nothing :
  forall (s : State) (up0 up2 move : MouseEvent),
    button up0 = 0%Z -> button up2 = 2%Z ->
    let idle := handleMouseUp (handleMouseUp s up0) up2 in
    handleMouseMove idle move = idle /\
    lasers idle = lasers s /\ nextId idle = nextId s.
Proof.
  intros s up0 up2 move H0 H2. cbv zeta.
  unfold handleMouseUp. rewrite H0, H2. cbn [Z.eqb Pos.eqb].
  unfold handleMouseMove.
  destruct (isPanning s) eqn:Hp;
    cbn [rotatingLaserId lastMouseX isDragging draggedLaserId isPanning
           setLastMouseX setRotatingLaserId setWasPanning setIsPanning
           setDraggedLaserId setIsDragging lasers nextId];
    rewrite ?Hp; repeat split; reflexivity.
Qed.

Lemma moves_after_release_change_nothing_witness :
  handleMouseMove
    (handleMouseUp (handleMouseUp rotatingRay0 primaryUp) secondaryUp)
    pointerAt640
  = handleMouseUp (handleMouseUp rotatingRay0 primaryUp) secondaryUp /\
  lasers (handleMouseUp (handleMouseUp rotatingRay0 primaryUp) secondaryUp)
  = lasers rotatingRay0 /\
  nextId (handleMouseUp (handleMouseUp rotatingRay0 primaryUp) secondaryUp)
  = nextId rotatingRay0.
Proof.
  apply (moves_after_release_change_nothing rotatingRay0 primaryUp secondaryUp
           pointerAt640); reflexivity.
Defined.

(** ** Invariants of the reachable scenes *)

Section MoreInvariants.

Variable parseFloat : string -> option R.
Variable toFixed : R -> nat -> string.

Lemma editLaser_keeps field numValue rs0 laser :
  Laser.fired (editLaser field numValue rs0 laser) = Laser.fired laser /\
  Laser.direction (editLaser field numValue rs0 laser) = Laser.direction laser.
Proof. destruct field; split; reflexivity. Qed.

Lemma Forall_map_same {A : Type} (P : A -> Prop) (f : A -> A) ls :
  (forall a, P a -> P (f a)) -> Forall P ls -> Forall P (map f ls).
Proof.
  intros Hf Hls. apply Forall_map. eapply Forall_impl; [|exact Hls].
  exact Hf.
Qed.

Lemma step_allFired s ev :
  allFired s -> allFired (step parseFloat toFixed s ev).
Proof.
  unfold allFired. intros Hs. destruct ev; cbn [step]; try exact Hs.
  - (* click *)
    unfold handleCanvasClick. split_tests; try exact Hs;
      cbn [lasers setLasers setNextId]; (apply Forall_app; split; [exact Hs|]);
      (constructor; [split; reflexivity | constructor]).
  - (* double click *)
    cbn [handleLaserDoubleClick lasers setLasers].
    apply Forall_forall. intros l Hl. apply filter_In in Hl.
    rewrite Forall_forall in Hs. apply Hs. tauto.
  - destruct (handleLaserMouseDown_scene toFixed s e id) as [-> _]. exact Hs.
  - (* edit *)
    unfold handleLaserEdit. split_tests; try exact Hs;
      cbn [lasers setLasers setTempInputValues];
      (apply Forall_map_same; [|exact Hs]); intros l Hl;
      (destruct (Z.eqb (Laser.id l) _); [|exact Hl]);
      match goal with
      | |- context [editLaser ?f ?v ?r l] =>
          destruct (editLaser_keeps f v r l) as [-> ->]
      end;
      exact Hl.
  - (* move *)
    unfold handleMouseMove. split_tests; try exact Hs;
      cbn [lasers setLasers setLastMouseX];
      (apply Forall_map_same; [|exact Hs]); intros l Hl;
      destruct (Z.eqb (Laser.id l) _); exact Hl.
  - destruct (handleMouseDown_scene s e) as [-> _]. exact Hs.
  - destruct (handleMouseUp_scene s e) as [-> _]. exact Hs.
  - constructor.
Qed.

Lemma run_allFired evs :
  forall s, allFired s -> allFired (run parseFloat toFixed s evs).
Proof.
  induction evs as [|ev evs IH]; intros s Hs; [exact Hs|].
  rewrite run_cons. apply IH, step_allFired, Hs.
Qed.

Lemma step_gesturesConsistent s ev :
  gesturesConsistent s -> gesturesConsistent (step parseFloat toFixed s ev).
Proof.
  unfold gesturesConsistent. intros [Hrot Hdrag].
  destruct ev; cbn [step]; try (split; assumption);
    first [ progress unfold handleCanvasClick
          | progress unfold handleLaserMouseDown
          | progress unfold handleLaserEdit
          | progress unfold handleMouseMove
          | progress unfold handleMouseDown
          | progress unfold handleMouseUp ];
    split_tests;
    cbn [rotatingLaserId lastMouseX isDragging draggedLaserId
           setDragOffset setDraggedLaserId setIsDragging
           setEditingLaserId setTempInputValues setLastMouseX
           setRotatingLaserId setLasers setPanOffset setWasPanning
           setIsPanning setPanStart setNextId];
    repeat match goal with
           | H : ?x = _ |- context [?x] => rewrite H
           end;
    try (split; assumption);
    (split; [try assumption | try assumption]);
    split; intros H; congruence.
Qed.

Lemma run_gesturesConsistent evs :
  forall s, gesturesConsistent s ->
            gesturesConsistent (run parseFloat toFixed s evs).
Proof.
  induction evs as [|ev evs IH]; intros s Hs; [exact Hs|].
  rewrite run_cons. apply IH, step_gesturesConsistent, Hs.
Qed.

End MoreInvariants.

Lemma initial_allFired : allFired initialState.
Proof. constructor. Qed.

Lemma initial_gesturesConsistent : gesturesConsistent initialState.
Proof.
  unfold gesturesConsistent. cbn. repeat split; intros H; congruence.
Qed.

(** X18.  In every scene that a sequence of events produces from the
    initial one every ray is fired and carries the direction tag
    [right]: a ray is created fired and no handler of this component
    writes either field again, so the path of every ray on the canvas is
    drawn. *)
Theorem reachable_rays_all_fired :
  forall (parseFloat : string -> option R) (toFixed : R -> nat -> string)
         (evs : list Event),
    Forall (fun l => Laser.fired l = true /\ Laser.direction l = dir_right)
      (lasers (run parseFloat toFixed initialState evs)).
Proof.
  intros parseFloat toFixed evs.
  apply (run_allFired parseFloat toFixed evs initialState initial_allFired).
Qed.

(** X19.  In every scene that a sequence of events produces from the
    initial one the gesture cells agree: a ray is being rotated exactly
    when a last pointer position is recorded, and the drag flag is set
    exactly when a dragged ray is recorded. *)
Theorem reachable_gestures_consistent :
  forall (parseFloat : string -> option R) (toFixed : R -> nat -> string)
         (evs : list Event),
    let s := run parseFloat toFixed initialState evs in
    (rotatingLaserId s = None <-> lastMouseX s = None) /\
    (isDragging s = true <-> draggedLaserId s <> None).
Proof.
  intros parseFloat toFixed evs.
  apply (run_gesturesConsistent parseFloat toFixed evs initialState
           initial_gesturesConsistent).
Qed.

(** ** Distances in body radii *)

(** What a click appends, and under which test. *)
Lemma handleCanvasClick_appends s e newLaser :
  lasers (handleCanvasClick s e) = lasers s ++ [newLaser] ->
  let relativeX :=
    (clientX e - rect_left e - xy_x (BH_CENTER s) - xy_x (panOffset s))
    / zoom s in
  let relativeY :=
    (clientY e - rect_top e - xy_y (BH_CENTER s) - xy_y (panOffset s))
    / zoom s in
  Laser.x newLaser = relativeX /\ Laser.y newLaser = relativeY /\
  Math.hypot relativeX relativeY > rs s / zoom s.
Proof.
  cbv zeta. unfold handleCanvasClick.
  assert (Hno : lasers s = lasers s ++ [newLaser] -> False).
  { intros H. apply (f_equal (@length _)) in H.
    rewrite length_app in H. cbn in H. lia. }
  destruct (wasPanning s); [intros H; now apply Hno in H|].
  destruct (isDragging s || isPanning s); [intros H; now apply Hno in H|].
  match goal with |- context [Rgtb ?a ?b] => destruct (Rgtb a b) eqn:Hgt end;
    [|intros H; now apply Hno in H].
  cbn [lasers setLasers setNextId]. intros H.
  apply app_inj_tail in H. destruct H as [_ <-].
  cbn [Laser.x Laser.y]. apply Rgtb_true in Hgt. auto.
Qed.

(** X20.  Where a new ray can be placed.  In a scene produced from the
    initial one, with a body of positive size, every ray that a canvas
    click adds lies more than 1 / zoom body radii from the body center
    (as [calculateDistanceInRs] measures it), hence more than 0.4 body
    radii: at zoom factors above 1 a ray can be created inside the body
    disk. *)
Theorem new_ray_distance_in_rs :
  forall (parseFloat : string -> option R) (toFixed : R -> nat -> string)
         (evs : list Event) (e : MouseEvent),
    let s := run parseFloat toFixed initialState evs in
    0 < BH_SIZE s ->
    Forall
      (fun newLaser =>
         calculateDistanceInRs (Laser.x newLaser) (Laser.y newLaser)
           (BH_SIZE s) > 1 / zoom s /\
         calculateDistanceInRs (Laser.x newLaser) (Laser.y newLaser)
           (BH_SIZE s) > 0.4)
      (skipn (length (lasers s)) (lasers (handleCanvasClick s e))).
Proof.
  intros parseFloat toFixed evs e s Hsize.
  destruct (handleCanvasClick_cases s e) as [[Hl _]|(newLaser & Happ & _)].
  { rewrite Hl, skipn_all. constructor. }
  rewrite Happ, skipn_app, skipn_all, Nat.sub_diag. cbn [app skipn].
  constructor; [|constructor].
  destruct (handleCanvasClick_appends s e newLaser Happ) as (Hx & Hy & Hgt).
  rewrite <- Hx, <- Hy in Hgt.
  pose proof (run_zoomInRange parseFloat toFixed evs initialState
                initial_zoomInRange) as Hz.
  fold s in Hz. unfold zoomInRange, minZoom, maxZoom in Hz.
  unfold calculateDistanceInRs.
  change (sqrt (Laser.x newLaser * Laser.x newLaser
                + Laser.y newLaser * Laser.y newLaser))
    with (Math.hypot (Laser.x newLaser) (Laser.y newLaser)).
  set (d := Math.hypot (Laser.x newLaser) (Laser.y newLaser)) in *.
  unfold rs in Hgt. set (b := BH_SIZE s * 0.25) in *.
  assert (Hb : 0 < b) by (unfold b; lra).
  assert (Hd : d / b > 1 / zoom s).
  { unfold Rdiv in *.
    assert (0 < / zoom s) by (apply Rinv_0_lt_compat; lra).
    assert (0 < / b) by (apply Rinv_0_lt_compat; exact Hb).
    assert (Hbb : b * / b = 1) by (apply Rinv_r; lra).
    nra. }
  split; [exact Hd|].
  assert (1 / zoom s >= 0.4).
  { unfold Rdiv. assert (Hzz : zoom s * / zoom s = 1) by (apply Rinv_r; lra).
    assert (0 < / zoom s) by (apply Rinv_0_lt_compat; lra). nra. }
  lra.
Qed.

Lemma new_ray_distance_in_rs_witness :
  Forall
    (fun newLaser =>
       calculateDistanceInRs (Laser.x newLaser) (Laser.y newLaser)
         (BH_SIZE initialState) > 1 / zoom initialState /\
       calculateDistanceInRs (Laser.x newLaser) (Laser.y newLaser)
         (BH_SIZE initialState) > 0.4)
    (skipn (length (lasers initialState))
       (lasers (handleCanvasClick initialState outsideClick))).
Proof.
  apply (new_ray_distance_in_rs parseTwo toFixedBlank [] outsideClick).
  cbn [run fold_left]. rewrite BH_SIZE_initial. lra.
Defined.

(** ** The star field *)

(** X21.  [generateStars] lays out exactly 200 stars, all of them on the
    canvas: for a canvas of positive width and height every star has
    0 <= x < width and 0 <= y < height, a radius in [0.2, 1.4) and an
    opacity in [0.3, 1). *)
Theorem generateStars_on_canvas :
  forall width height : R,
    0 < width -> 0 < height ->
    length (generateStars width height) = 200%nat /\
    Forall
      (fun star =>
         0 <= Star.x star < width /\
         0 <= Star.y star < height /\
         0.2 <= Star.r star < 1.4 /\
         0.3 <= Star.o star < 1)
      (generateStars width height).
Proof.
  intros width height Hw Hh. unfold generateStars. split.
  - rewrite length_map, length_seq. reflexivity.
  - apply Forall_map, Forall_forall. intros i _.
    cbn [Star.x Star.y Star.r Star.o].
    assert (Hseed : 0 <= js_rem (INR i * 16807) 2147483647).
    { apply js_rem_nonneg; [lra|]. pose proof (pos_INR i). lra. }
    set (seed := js_rem (INR i * 16807) 2147483647) in *.
    assert (Hv : 0 <= js_rem (seed * 16807) 2147483647).
    { apply js_rem_nonneg; lra. }
    set (v := js_rem (seed * 16807) 2147483647) in *.
    pose proof (js_rem_nonneg seed width Hw Hseed).
    pose proof (js_rem_nonneg v height Hh Hv).
    pose proof (js_rem_nonneg v STAR_SIZE ltac:(unfold STAR_SIZE; lra) Hv) as Hr.
    pose proof (js_rem_nonneg v 0.7 ltac:(lra) Hv).
    unfold STAR_SIZE in *. repeat split; lra.
Qed.

Lemma generateStars_on_canvas_witness :
  length (generateStars 800 800) = 200%nat /\
  Forall
    (fun star =>
       0 <= Star.x star < 800 /\
       0 <= Star.y star < 800 /\
       0.2 <= Star.r star < 1.4 /\
       0.3 <= Star.o star < 1)
    (generateStars 800 800).
Proof. apply (generateStars_on_canvas 800 800); lra. Defined.

(** ** The first version of the path *)

Section StraightWalk.

Variables (startX startY angle width height bhSize : R).

Local Abbreviation walk :=
  (StraightPath.walk angle width height bhSize).
Local Abbreviation hitsBlackHole := (StraightPath.hitsBlackHole bhSize).
Local Abbreviation hitsScreenEdge := (StraightPath.hitsScreenEdge width height).
Local Abbreviation pointAt := (StraightPath.pointAt width height bhSize).
Local Abbreviation dx := (StraightPath.dx angle).
Local Abbreviation dy := (StraightPath.dy angle).
Local Abbreviation x0 := (StraightPath.relativeStartX startX width).
Local Abbreviation y0 := (StraightPath.relativeStartY startY height).

Lemma walk_S fuel currentX currentY steps points :
  walk (S fuel) currentX currentY steps points
  = if hitsBlackHole currentX currentY then Some points
    else if hitsScreenEdge currentX currentY then Some points
    else walk fuel (currentX + dx * StraightPath.stepSize)
           (currentY + dy * StraightPath.stepSize) (S steps)
           (points ++ [pointAt currentX currentY]).
Proof. reflexivity. Qed.

Lemma direction_unit : dx * dx + dy * dy = 1.
Proof.
  unfold StraightPath.dx, StraightPath.dy, Math.cos, Math.sin.
  pose proof (sin2_cos2 (StraightPath.angleRad angle)) as H.
  unfold Rsqr in H. lra.
Qed.

Lemma on_screen x y :
  hitsScreenEdge x y = false ->
  0 <= x + width / 2 <= width /\ 0 <= y + height / 2 <= height.
Proof.
  unfold StraightPath.hitsScreenEdge, StraightPath.centerX,
    StraightPath.centerY.
  intros H. apply orb_false_elim in H. destruct H as [H H4].
  apply orb_false_elim in H. destruct H as [H H3].
  apply orb_false_elim in H. destruct H as [H1 H2].
  apply Rltb_false in H1, H3. apply Rgtb_false in H2, H4. lra.
Qed.

(** Two points on the screen are no farther apart than its diagonal. *)
Lemma on_screen_apart x1 y1 x2 y2 :
  hitsScreenEdge x1 y1 = false -> hitsScreenEdge x2 y2 = false ->
  (x2 - x1) * (x2 - x1) + (y2 - y1) * (y2 - y1)
  <= width * width + height * height.
Proof.
  intros H1 H2. apply on_screen in H1, H2. nra.
Qed.

(** The walk started on the screen has left it after [k] steps once
    [10 k] exceeds the diagonal. *)
Lemma off_screen_after k :
  hitsScreenEdge x0 y0 = false ->
  width * width + height * height < 100 * (INR k * INR k) ->
  hitsScreenEdge (x0 + INR k * (dx * StraightPath.stepSize))
    (y0 + INR k * (dy * StraightPath.stepSize)) = true.
Proof.
  intros H0 Hk.
  destruct (hitsScreenEdge (x0 + INR k * (dx * StraightPath.stepSize))
              (y0 + INR k * (dy * StraightPath.stepSize))) eqn:Hs;
    [reflexivity|].
  exfalso. pose proof (on_screen_apart _ _ _ _ H0 Hs) as Hd.
  pose proof direction_unit as Hu. unfold StraightPath.stepSize in Hd.
  set (n := INR k) in *.
  replace ((x0 + n * (dx * 10) - x0) * (x0 + n * (dx * 10) - x0)
           + (y0 + n * (dy * 10) - y0) * (y0 + n * (dy * 10) - y0))
    with (100 * (n * n) * (dx * dx + dy * dy)) in Hd by ring.
  rewrite Hu in Hd. lra.
Qed.

Lemma walk_terminates n :
  forall k steps pts,
    hitsScreenEdge x0 y0 = false ->
    width * width + height * height < 100 * (INR (k + n) * INR (k + n)) ->
    exists pts',
      walk (S n) (x0 + INR k * (dx * StraightPath.stepSize))
        (y0 + INR k * (dy * StraightPath.stepSize)) steps pts = Some pts' /\
      (length pts' <= length pts + n)%nat.
Proof.
  induction n as [|n IH]; intros k steps pts H0 Hk; rewrite walk_S.
  - rewrite Nat.add_0_r in Hk. rewrite (off_screen_after k H0 Hk).
    destruct (hitsBlackHole _ _); exists pts; split; auto; lia.
  - destruct (hitsBlackHole _ _); [exists pts; split; auto; lia|].
    destruct (hitsScreenEdge (x0 + INR k * (dx * StraightPath.stepSize)) _);
      [exists pts; split; auto; lia|].
    replace (x0 + INR k * (dx * StraightPath.stepSize)
             + dx * StraightPath.stepSize)
      with (x0 + INR (S k) * (dx * StraightPath.stepSize))
      by (rewrite S_INR; ring).
    replace (y0 + INR k * (dy * StraightPath.stepSize)
             + dy * StraightPath.stepSize)
      with (y0 + INR (S k) * (dy * StraightPath.stepSize))
      by (rewrite S_INR; ring).
    replace (k + S n)%nat with (S k + n)%nat in Hk by lia.
    destruct (IH (S k) (S steps)
                 (pts ++ [pointAt (x0 + INR k * (dx * StraightPath.stepSize))
                            (y0 + INR k * (dy * StraightPath.stepSize))])
                 H0 Hk) as (pts' & Hw & Hlen).
    exists pts'. split; [exact Hw|].
    rewrite length_app in Hlen. cbn [length] in Hlen. lia.
Qed.

Lemma walk_more_fuel n :
  forall m x y steps pts r,
    walk n x y steps pts = Some r -> walk (n + m) x y steps pts = Some r.
Proof.
  induction n as [|n IH]; intros m x y steps pts r H; [discriminate|].
  change (S n + m)%nat with (S (n + m)). rewrite walk_S in *.
  destruct (hitsBlackHole x y); [exact H|].
  destruct (hitsScreenEdge x y); [exact H|].
  apply IH, H.
Qed.

Local Abbreviation recorded :=
  (recordedOnWalk startX startY angle width height bhSize).

Lemma walk_recorded n :
  forall k steps pts r,
    walk n (x0 + INR k * (dx * StraightPath.stepSize))
      (y0 + INR k * (dy * StraightPath.stepSize)) steps pts = Some r ->
    Forall recorded pts -> Forall recorded r.
Proof.
  induction n as [|n IH]; intros k steps pts r H Hpts; [discriminate|].
  rewrite walk_S in H.
  destruct (hitsBlackHole _ _) eqn:Hbh; [injection H as <-; exact Hpts|].
  destruct (hitsScreenEdge (x0 + INR k * (dx * StraightPath.stepSize)) _)
    eqn:Hse; [injection H as <-; exact Hpts|].
  replace (x0 + INR k * (dx * StraightPath.stepSize)
           + dx * StraightPath.stepSize)
    with (x0 + INR (S k) * (dx * StraightPath.stepSize)) in H
    by (rewrite S_INR; ring).
  replace (y0 + INR k * (dy * StraightPath.stepSize)
           + dy * StraightPath.stepSize)
    with (y0 + INR (S k) * (dy * StraightPath.stepSize)) in H
    by (rewrite S_INR; ring).
  apply (IH (S k) _ _ _ H). apply Forall_app. split; [exact Hpts|].
  constructor; [|constructor].
  set (x := x0 + INR k * (dx * StraightPath.stepSize)) in *.
  set (y := y0 + INR k * (dy * StraightPath.stepSize)) in *.
  unfold recordedOnWalk, StraightPath.pointAt.
  cbn [Point.x Point.y Point.distToCenter].
  unfold StraightPath.centerX, StraightPath.centerY.
  apply on_screen in Hse.
  unfold StraightPath.hitsBlackHole in Hbh. apply Rleb_false in Hbh.
  split; [|split; [exact Hbh|split; [tauto|split; [tauto|]]]].
  - unfold calculateDistanceInRs, StraightPath.blackHoleRadius.
    replace (x + width / 2 - width / 2) with x by ring.
    replace (y + height / 2 - height / 2) with y by ring. reflexivity.
  - exists (INR k * 10). split; [pose proof (pos_INR k); lra|].
    unfold x, y, StraightPath.relativeStartX, StraightPath.relativeStartY,
      StraightPath.centerX, StraightPath.centerY, StraightPath.stepSize,
      StraightPath.dx, StraightPath.dy, StraightPath.angleRad,
      Solver.vx, Solver.vy, Solver.angle.
    split; apply closeTo_exact; cbn [Point.x Point.y]; ring.
Qed.

End StraightWalk.

Lemma diagonal_bound_exists (width height : R) :
  exists N : nat, width * width + height * height < 100 * (INR N * INR N).
Proof.
  set (m := Rabs width + Rabs height).
  assert (Hm : 0 <= m).
  { unfold m. pose proof (Rabs_pos width). pose proof (Rabs_pos height). lra. }
  pose proof (archimed m) as [Hup _].
  assert (Hz : (0 <= up m)%Z) by (apply le_IZR; lra).
  exists (Z.to_nat (up m)).
  rewrite INR_IZR_INZ, Z2Nat.id by exact Hz.
  set (n := IZR (up m)) in *.
  assert (Hw : width * width = Rabs width * Rabs width).
  { unfold Rabs. destruct (Rcase_abs width); ring. }
  assert (Hh : height * height = Rabs height * Rabs height).
  { unfold Rabs. destruct (Rcase_abs height); ring. }
  rewrite Hw, Hh. unfold m in *.
  pose proof (Rabs_pos width). pose proof (Rabs_pos height). nra.
Qed.

(** X22.  The first version of [calculateLightPath] has no step budget,
    and still its loop ends for every input: the walk advances 10 pixels
    per step in a fixed direction, so it has left the screen by the time
    [10 N] exceeds the diagonal of the screen.  For every such [N] the
    loop makes at most [N + 1] iterations, returns the same sequence for
    any larger allowance, and that sequence has at most [N] points; such
    an [N] exists for every width and height. *)
Theorem straight_walk_terminates :
  forall startX startY angle width height bhSize : R,
    (forall N : nat,
        width * width + height * height < 100 * (INR N * INR N) ->
        exists pts,
          (forall fuel, (N < fuel)%nat ->
             StraightPath.calculateLightPath startX startY angle width height
               bhSize fuel = Some pts) /\
          (length pts <= N)%nat) /\
    (exists N : nat, width * width + height * height < 100 * (INR N * INR N)).
Proof.
  intros startX startY angle width height bhSize.
  split; [|apply diagonal_bound_exists].
  intros N HN. unfold StraightPath.calculateLightPath.
  destruct (StraightPath.hitsScreenEdge width height
              (StraightPath.relativeStartX startX width)
              (StraightPath.relativeStartY startY height)) eqn:Hedge.
  - exists []. split; [|cbn; lia]. intros fuel Hfuel.
    destruct fuel as [|fuel]; [lia|]. rewrite walk_S, Hedge.
    destruct (StraightPath.hitsBlackHole _ _ _); reflexivity.
  - destruct (walk_terminates startX startY angle width height bhSize N
                0%nat 0%nat [] Hedge HN) as (pts & Hw & Hlen).
    simpl INR in Hw.
    replace (StraightPath.relativeStartX startX width
             + 0 * (StraightPath.dx angle * StraightPath.stepSize))
      with (StraightPath.relativeStartX startX width) in Hw by ring.
    replace (StraightPath.relativeStartY startY height
             + 0 * (StraightPath.dy angle * StraightPath.stepSize))
      with (StraightPath.relativeStartY startY height) in Hw by ring.
    exists pts. split; [|exact Hlen].
    intros fuel Hfuel. replace fuel with (S N + (fuel - S N))%nat by lia.
    apply walk_more_fuel, Hw.
Qed.

(** X23.  What the first version records.  Every point of the sequence
    it returns carries in [distToCenter] its distance from the body
    center in body radii ([calculateDistanceInRs] of its offset), that
    distance is above 1, the point is on the screen, and it lies exactly
    on the Euclidean ray from the start point in the direction of
    emission. *)
Theorem straight_walk_records_distance :
  forall (startX startY angle width height bhSize : R) (fuel : nat)
         (pts : list Point.t),
    StraightPath.calculateLightPath startX startY angle width height bhSize
      fuel = Some pts ->
    Forall (recordedOnWalk startX startY angle width height bhSize) pts.
Proof.
  intros startX startY angle width height bhSize fuel pts H.
  unfold StraightPath.calculateLightPath in H.
  apply (walk_recorded startX startY angle width height bhSize fuel 0%nat
           0%nat [] pts); [|constructor].
  simpl INR.
  replace (StraightPath.relativeStartX startX width
           + 0 * (StraightPath.dx angle * StraightPath.stepSize))
    with (StraightPath.relativeStartX startX width) by ring.
  replace (StraightPath.relativeStartY startY height
           + 0 * (StraightPath.dy angle * StraightPath.stepSize))
    with (StraightPath.relativeStartY startY height) by ring.
  exact H.
Qed.

(** The ray 5 pixels from the right edge: one point, then the screen
    ends. *)
Lemma straight_walk_near_edge :
  StraightPath.calculateLightPath 795 400 0 800 800 600 2
  = Some [StraightPath.pointAt 800 800 600 395 0].
Proof.
  unfold StraightPath.calculateLightPath, StraightPath.relativeStartX,
    StraightPath.relativeStartY, StraightPath.centerX, StraightPath.centerY.
  replace (795 - 800 / 2) with 395 by lra.
  replace (400 - 800 / 2) with 0 by lra.
  rewrite walk_S.
  assert (Hbh : forall a, 150 < a ->
                StraightPath.hitsBlackHole 600 a 0 = false).
  { intros a Ha. unfold StraightPath.hitsBlackHole,
      StraightPath.blackHoleRadius.
    change (sqrt (a * a + 0 * 0)) with (Math.hypot a 0).
    rewrite hypot_axis by lra. apply Rleb_false. lra. }
  rewrite Hbh by lra.
  replace (StraightPath.hitsScreenEdge 800 800 395 0) with false.
  2:{ symmetry. unfold StraightPath.hitsScreenEdge, StraightPath.centerX,
        StraightPath.centerY, Rgtb. rcompare. reflexivity. }
  assert (Hdx : StraightPath.dx 0 = 1).
  { unfold StraightPath.dx, StraightPath.angleRad, Math.cos, Math.PI.
    replace (0 * PI / 180) with 0 by lra. apply cos_0. }
  assert (Hdy : StraightPath.dy 0 = 0).
  { unfold StraightPath.dy, StraightPath.angleRad, Math.sin, Math.PI.
    replace (0 * PI / 180) with 0 by lra. apply sin_0. }
  rewrite Hdx, Hdy. unfold StraightPath.stepSize.
  replace (395 + 1 * 10) with 405 by lra.
  replace (0 + 0 * 10) with 0 by lra.
  rewrite walk_S, Hbh by lra.
  replace (StraightPath.hitsScreenEdge 800 800 405 0) with true.
  2:{ symmetry. unfold StraightPath.hitsScreenEdge, StraightPath.centerX,
        StraightPath.centerY, Rgtb. rcompare. reflexivity. }
  reflexivity.
Qed.

Lemma straight_walk_records_distance_witness :
  Forall (recordedOnWalk 795 400 0 800 800 600)
    [StraightPath.pointAt 800 800 600 395 0].
Proof.
  apply (straight_walk_records_distance 795 400 0 800 800 600 2).
  exact straight_walk_near_edge.
Defined.

(** ** Opening the dialog *)

(** X24.  Shift with the secondary button on a ray opens the edit dialog
    for that ray and stages its display values: x / rs and -y / rs with
    two decimals and the display angle with one, for the first ray that
    carries the id; the rays, the id counter and the gesture cells are
    left alone.  For an id that no ray carries the state is unchanged and
    no dialog opens. *)
Theorem dialog_opens_for_existing_ray :
  forall (toFixed : R -> nat -> string) (s : State) (e : MouseEvent) (id : Z),
    button e = 2%Z -> shiftKey e = true ->
    let s' := handleLaserMouseDown toFixed s e id in
    (forall laser,
        find (fun l => Z.eqb (Laser.id l) id) (lasers s) = Some laser ->
        editingLaserId s' = Some id /\
        tempInputValues s'
        = TempInput.mk
            (toFixed (Laser.x laser / (BH_SIZE s * 0.25)) 2%nat)
            (toFixed ((- Laser.y laser) / (BH_SIZE s * 0.25)) 2%nat)
            (toFixed (displayAngleOf (Laser.angle laser)) 1%nat)) /\
    (~ In id (map Laser.id (lasers s)) -> s' = s) /\
    lasers s' = lasers s /\ nextId s' = nextId s /\
    rotatingLaserId s' = rotatingLaserId s /\ isDragging s' = isDragging s.
Proof.
  intros toFixed s e id Hb Hshift. cbv zeta.
  unfold handleLaserMouseDown. rewrite Hb, Hshift. cbn [Z.eqb Pos.eqb].
  split; [|split].
  - intros laser Hfind. rewrite Hfind. split; reflexivity.
  - intros Hnot.
    destruct (find (fun l => Z.eqb (Laser.id l) id) (lasers s)) as [laser|]
      eqn:Hfind; [|reflexivity].
    exfalso. apply find_some in Hfind. destruct Hfind as [Hin Heq].
    apply Z.eqb_eq in Heq. apply Hnot. rewrite <- Heq. now apply in_map.
  - destruct (find (fun l => Z.eqb (Laser.id l) id) (lasers s));
      repeat split; reflexivity.
Qed.

Lemma dialog_opens_for_existing_ray_witness :
  (forall laser,
      find (fun l => Z.eqb (Laser.id l) 0) (lasers oneRay) = Some laser ->
      editingLaserId
        (handleLaserMouseDown toFixedBlank oneRay shiftSecondaryDown 0)
      = Some 0%Z /\
      tempInputValues
        (handleLaserMouseDown toFixedBlank oneRay shiftSecondaryDown 0)
      = TempInput.mk
          (toFixedBlank (Laser.x laser / (BH_SIZE oneRay * 0.25)) 2%nat)
          (toFixedBlank ((- Laser.y laser) / (BH_SIZE oneRay * 0.25)) 2%nat)
          (toFixedBlank (displayAngleOf (Laser.angle laser)) 1%nat)) /\
  (~ In 0%Z (map Laser.id (lasers oneRay)) ->
   handleLaserMouseDown toFixedBlank oneRay shiftSecondaryDown 0 = oneRay) /\
  lasers (handleLaserMouseDown toFixedBlank oneRay shiftSecondaryDown 0)
  = lasers oneRay /\
  nextId (handleLaserMouseDown toFixedBlank oneRay shiftSecondaryDown 0)
  = nextId oneRay /\
  rotatingLaserId
    (handleLaserMouseDown toFixedBlank oneRay shiftSecondaryDown 0)
  = rotatingLaserId oneRay /\
  isDragging (handleLaserMouseDown toFixedBlank oneRay shiftSecondaryDown 0)
  = isDragging oneRay.
Proof.
  apply (dialog_opens_for_existing_ray toFixedBlank oneRay
           shiftSecondaryDown 0%Z); reflexivity.
Defined.

(** ** Creating and deleting *)

(** X25.  Deleting the ray that a click has just created restores the
    ray list: in a scene produced from the initial one, a canvas click
    followed by a double click on the id the click handed out (the value
    of the counter before the click) leaves exactly the rays of before.
    The counter is not restored. *)
Theorem delete_undoes_create :
  forall (parseFloat : string -> option R) (toFixed : R -> nat -> string)
         (evs : list Event) (e : MouseEvent),
    let s := run parseFloat toFixed initialState evs in
    lasers (handleLaserDoubleClick (handleCanvasClick s e) (nextId s))
    = lasers s /\
    (nextId s <= nextId (handleLaserDoubleClick (handleCanvasClick s e)
                           (nextId s)))%Z.
Proof.
  intros parseFloat toFixed evs e s.
  pose proof (run_idsFresh parseFloat toFixed evs initialState
                initial_idsFresh) as [_ Hlt].
  fold s in Hlt.
  assert (Hold : filter (fun laser => negb (Z.eqb (Laser.id laser) (nextId s)))
                   (lasers s) = lasers s).
  { apply filter_absent_id. intros Hin. apply in_map_iff in Hin.
    destruct Hin as (l & Hid & Hl). rewrite Forall_forall in Hlt.
    specialize (Hlt l Hl). lia. }
  unfold handleLaserDoubleClick. cbn [lasers setLasers nextId].
  destruct (handleCanvasClick_cases s e)
    as [[Hl Hn]|(l & Hl & Hn & Hid & _)]; rewrite Hl, Hn.
  - split; [exact Hold | lia].
  - rewrite filter_app, Hold. cbn [filter]. rewrite Hid, Z.eqb_refl.
    cbn [negb]. rewrite app_nil_r. split; [reflexivity | lia].
Qed.

(** ** Which events change the ray list *)

Lemma handleLaserEdit_ids parseFloat s field value :
  map Laser.id (lasers (handleLaserEdit parseFloat s field value))
  = map Laser.id (lasers s).
Proof.
  unfold handleLaserEdit. split_tests;
    cbn [lasers setLasers setTempInputValues]; try reflexivity.
  rewrite map_map. apply map_ext. intros l.
  destruct (Z.eqb (Laser.id l) _); [destruct field; reflexivity | reflexivity].
Qed.

Lemma handleMouseMove_ids s e :
  map Laser.id (lasers (handleMouseMove s e)) = map Laser.id (lasers s).
Proof.
  unfold handleMouseMove. split_tests;
    cbn [lasers setLasers setLastMouseX setPanOffset]; try reflexivity;
    rewrite map_map; apply map_ext; intros l;
    destruct (Z.eqb (Laser.id l) _); reflexivity.
Qed.

(** X26.  Only a canvas click adds a ray and only a double click or
    clear-all removes one: a click leaves the list as it is or appends
    one ray; a double click and clear-all leave a sublist (no ray is
    changed or added); every other event keeps the number, the order and
    the ids of the rays. *)
Theorem events_and_the_ray_list :
  forall (parseFloat : string -> option R) (toFixed : R -> nat -> string)
         (s : State) (ev : Event),
    let s' := step parseFloat toFixed s ev in
    match ev with
    | CanvasClick _ =>
        lasers s' = lasers s \/ exists l, lasers s' = lasers s ++ [l]
    | LaserDoubleClick _ | CleanAll =>
        (forall l, In l (lasers s') -> In l (lasers s)) /\
        (length (lasers s') <= length (lasers s))%nat
    | _ => map Laser.id (lasers s') = map Laser.id (lasers s)
    end.
Proof.
  intros parseFloat toFixed s ev. cbv zeta. destruct ev; cbn [step];
    try reflexivity.
  - destruct (handleCanvasClick_cases s e) as [[Hl _]|(l & Hl & _)];
      [left; exact Hl | right; exists l; exact Hl].
  - cbn [handleLaserDoubleClick lasers setLasers]. split.
    + intros l Hl. apply filter_In in Hl. tauto.
    + apply filter_length_le.
  - destruct (handleLaserMouseDown_scene toFixed s e id) as [-> _].
    reflexivity.
  - apply handleLaserEdit_ids.
  - apply handleMouseMove_ids.
  - destruct (handleMouseDown_scene s e) as [-> _]. reflexivity.
  - destruct (handleMouseUp_scene s e) as [-> _]. reflexivity.
  - cbn [handleCleanAll lasers setLasers]. split; [intros l []|cbn; lia].
Qed.
